(** * trace: causal stack traces across asynchronous boundaries

    A shallow embedding of [trace.js] and the properties of its
    stitching engine.  JavaScript values are a small sum type, the
    [Map] and [Set] of the module are finite maps and sets, a thrown
    exception is the [Throw] branch of a result type, and the module's
    global variables are the fields of one [State] record that every
    hook takes and returns. *)

From stdpp Require Import gmap strings list fin_maps.

(** ** JavaScript values and exceptions *)

(** The values a call site accessor can report.  Numbers are the
    integers V8 reports for lines and columns. *)
Inductive JsValue :=
  | JUndefined
  | JNull
  | JNumber (n : Z)
  | JString (s : string).

#[global] Instance JsValue_eq_dec : EqDecision JsValue.
Proof. solve_decision. Defined.

(** [a === b] *)
Definition strict_eq (a b : JsValue) : bool := bool_decide (a = b).

(** [v === null] *)
Definition is_null (v : JsValue) : bool :=
  match v with JNull => true | _ => false end.

(** Truthiness, as [!name] uses it. *)
Definition truthy (v : JsValue) : bool :=
  match v with
  | JUndefined | JNull => false
  | JNumber n => negb (n =? 0)%Z
  | JString s => negb (String.eqb s "")
  end.

Inductive Exception := TypeError.

Inductive Result (A : Type) :=
  | Ok (a : A)
  | Throw (e : Exception).
Arguments Ok {A} a.
Arguments Throw {A} e.

#[global] Instance Result_ret : MRet Result := @Ok.
#[global] Instance Result_bind : MBind Result := λ A B f m,
  match m with
  | Ok a => f a
  | Throw e => Throw e
  end.

(** ** Raw call sites *)

(** What V8 hands out for one stack frame: each accessor method takes no
    argument and reports a fixed value. *)
Record CallSite := mkCallSite {
  cs_fileName : JsValue;
  cs_lineNumber : JsValue;
  cs_columnNumber : JsValue;
  cs_functionName : JsValue;
}.

#[global] Instance CallSite_eq_dec : EqDecision CallSite.
Proof. solve_decision. Defined.

(** [object[property]]: the method stored under a name, [None] for
    [undefined].  Of the methods of a call site these are the ones the
    module calls, and the function name. *)
Definition CallSite_property (property : string) : option (CallSite → JsValue) :=
  if decide (property = "getFileName") then Some cs_fileName
  else if decide (property = "getLineNumber") then Some cs_lineNumber
  else if decide (property = "getColumnNumber") then Some cs_columnNumber
  else if decide (property = "getFunctionName") then Some cs_functionName
  else None.

(** ** WeakRef and WeakProxy *)

Module Handle.

(** Identity of a heap object. *)
Definition ObjId := positive.

(** [class WeakRef]: the object itself ([self] is its identity, the
    [this] of the constructor) and its one field, a [WeakMap]. *)
Record WeakRef (V : Type) := mkWeakRef {
  self : ObjId;
  _weakMap : gmap ObjId V;
}.
Arguments mkWeakRef {V} self _weakMap.
Arguments self {V} w.
Arguments _weakMap {V} w.

(** [constructor(value) { this._weakMap = new WeakMap([[this, value]]); }] *)
Definition new_WeakRef {V} (this : ObjId) (value : V) : WeakRef V :=
  {| self := this; _weakMap := {[ this := value ]} |}.

(** [deref() { return this._weakMap.get(this); }], [None] for
    [undefined]. *)
Definition deref {V} (this : WeakRef V) : option V :=
  _weakMap this !! self this.

(** A garbage collection, seen from a [WeakMap]: entries whose key
    object is still reachable stay as they are, any of the others may
    go. *)
Definition collect {V} (live : ObjId → Prop) (m m' : gmap ObjId V) : Prop :=
  m' ⊆ m ∧ ∀ k, live k → m' !! k = m !! k.

(** The wrapper across any number of collections during each of which
    it is itself reachable. *)
Inductive survives {V} : WeakRef V → WeakRef V → Prop :=
  | survives_refl w : survives w w
  | survives_step w m' w' (live : ObjId → Prop) :
      live (self w) →
      collect live (_weakMap w) m' →
      survives (mkWeakRef (self w) m') w' →
      survives w w'.

(** What the [get] trap returns: [undefined], or a method bound to the
    object it was read from. *)
Inductive Accessed :=
  | AUndefined
  | ABound (value : CallSite → JsValue) (object : CallSite).

(** The default handler of [WeakProxy]:
    [get(target, property) { const object = target.deref();
       if (!object) return undefined;
       const value = object[property];
       return typeof value === 'function' ? value.bind(object) : value; }] *)
Definition WeakProxy_get (target : WeakRef CallSite) (property : string) : Accessed :=
  match deref target with
  | None => AUndefined
  | Some object =>
      match CallSite_property property with
      | Some value => ABound value object
      | None => AUndefined
      end
  end.

(** Calling what the trap returned: calling [undefined] is a
    [TypeError]. *)
Definition invoke (f : Accessed) : Result JsValue :=
  match f with
  | AUndefined => Throw TypeError
  | ABound value object => Ok (value object)
  end.

End Handle.
Import Handle.

(** A frame handle is the proxy over a [WeakRef] of a call site. *)
Abbreviation Frame := (WeakRef CallSite).

(** [function WeakProxy(value, handler)] with the default handler; the
    identity of the new [WeakRef] is given. *)
Definition WeakProxy (this : ObjId) (value : CallSite) : Frame :=
  new_WeakRef this value.
Arguments WeakProxy this%_positive value.

(** [a.getFileName()] and the like, through the proxy. *)
Definition getFileName (a : Frame) : Result JsValue :=
  invoke (WeakProxy_get a "getFileName").
Definition getLineNumber (a : Frame) : Result JsValue :=
  invoke (WeakProxy_get a "getLineNumber").
Definition getColumnNumber (a : Frame) : Result JsValue :=
  invoke (WeakProxy_get a "getColumnNumber").

(** ** Frame equality *)

Definition equalCallSite (a b : Frame) : Result bool :=
  aFile ← getFileName a;
  aLine ← getLineNumber a;
  aColumn ← getColumnNumber a;
  if is_null aFile || is_null aLine || is_null aColumn then Ok false
  else
    bFile ← getFileName b;
    if negb (strict_eq aFile bFile) then Ok false
    else
      bLine ← getLineNumber b;
      if negb (strict_eq aLine bLine) then Ok false
      else
        bColumn ← getColumnNumber b;
        Ok (strict_eq aColumn bColumn).

(** ** The frame source *)

(** The options object given to [chain.callSite]. *)
Record CallSiteOptions := mkOptions {
  opt_extend : bool;
  opt_filter : bool;
  opt_slice : Z;
}.

(** The filter the module attaches to the chain: a frame stays unless
    its file name is one of the two [async_hooks] sources. *)
Definition filter_hook (frames : list CallSite) : list CallSite :=
  List.filter
    (λ callSite,
       let name := cs_fileName callSite in
       negb (truthy name)
       || (negb (strict_eq name (JString "async_hooks.js"))
           && negb (strict_eq name (JString "internal/async_hooks.js"))))
    frames.

(** Modelled from the spec: the frame source, [chain.callSite] of the
    [stack-chain] package over V8's capture, is no part of the
    repository.  Of the current synchronous call chain [stack],
    innermost frame first, it sees as many frames as the
    maximum-frame-depth setting in force allows, leaves out the
    [slice] innermost of them, and applies the attached filter when
    asked to. *)
Definition captureFrames (limit : Z) (stack : list CallSite)
    (options : CallSiteOptions) : list CallSite :=
  let seen := take (Z.to_nat limit) stack in
  let callSites := drop (Z.to_nat (opt_slice options)) seen in
  if opt_filter options then filter_hook callSites else callSites.

(** ** Array operations *)

(** [array.splice(start)]: everything from [start] on is removed; a
    negative [start] counts from the end. *)
Definition splice {A} (start : Z) (array : list A) : list A :=
  let len := Z.of_nat (length array) in
  let actualStart :=
    if (start <? 0)%Z then Z.max (len + start) 0 else Z.min start len in
  take (Z.to_nat actualStart) array.

(** ** The engine *)

(** The module's variables, [Error.stackTraceLimit], and the next free
    object identity of the heap. *)
Record State := mkState {
  executionScopeInits : gset Z;
  executionScopeDepth : Z;
  traces : gmap Z (list Frame);
  stackTraceLimit : Z;
  nextObject : ObjId;
}.

Definition set_stackTraceLimit (limit : Z) (s : State) : State :=
  mkState (executionScopeInits s) (executionScopeDepth s) (traces s)
          limit (nextObject s).

(** The state a freshly loaded module starts in. *)
Definition initial (limit : Z) : State :=
  mkState ∅ 0 ∅ limit 1%positive.

(** [function cloneCallSite(callSite) { return new WeakProxy(callSite); }] *)
Definition cloneCallSite (callSite : CallSite) (s : State) : Frame * State :=
  (WeakProxy (nextObject s) callSite,
   mkState (executionScopeInits s) (executionScopeDepth s) (traces s)
           (stackTraceLimit s) (Pos.succ (nextObject s))).

(** [callSites.map(cloneCallSite)] *)
Fixpoint map_cloneCallSite (callSites : list CallSite) (s : State)
    : list Frame * State :=
  match callSites with
  | [] => ([], s)
  | callSite :: rest =>
      let '(frame, s1) := cloneCallSite callSite s in
      let '(frames, s2) := map_cloneCallSite rest s1 in
      (frame :: frames, s2)
  end.

(** The dedup loop of [asyncInit]:
    [let i = parentTrace.length;
     while (i-- && trace.length > 1) {
       if (equalCallSite(parentTrace[i], trace[trace.length - 1])) trace.pop();
     }]
    The first argument of [dedup] is the value of [i] before [i--]. *)
Fixpoint dedup (parentTrace : list Frame) (i : nat) (trace : list Frame)
    : Result (list Frame) :=
  match i with
  | O => Ok trace
  | S i' =>
      if bool_decide (1 < length trace) then
        match parentTrace !! i', last trace with
        | Some a, Some b =>
            match equalCallSite a b with
            | Ok true => dedup parentTrace i' (removelast trace)
            | Ok false => dedup parentTrace i' trace
            | Throw e => Throw e
            end
        | _, _ => Throw TypeError
        end
      else Ok trace
  end.

(** The extend hook the module attaches to the chain, [id] being
    [asyncHook.executionAsyncId()]: what is stored for [id], if
    anything, is pushed onto [frames], the array of the call sites
    gathered synchronously, which from then on holds handles too. *)
Definition extend_hook (id : Z) (frames : list (CallSite + Frame)) (s : State)
    : list (CallSite + Frame) :=
  frames ++ (inr <$> default [] (traces s !! id)).

Definition asyncBefore (s : State) : State :=
  let inits :=
    if bool_decide (executionScopeDepth s = 0%Z) then ∅
    else executionScopeInits s in
  mkState inits (executionScopeDepth s + 1) (traces s)
          (stackTraceLimit s) (nextObject s).

Definition asyncAfter (s : State) : State :=
  mkState (executionScopeInits s) (executionScopeDepth s - 1) (traces s)
          (stackTraceLimit s) (nextObject s).

Definition asyncDestroy (asyncId : Z) (s : State) : State :=
  mkState (executionScopeInits s) (executionScopeDepth s)
          (delete asyncId (traces s))
          (stackTraceLimit s) (nextObject s).

Section Engine.

(** [chain.callSite]: from the frame limit in force, the current
    synchronous call chain and the options, the captured call sites. *)
Variable chain_callSite : Z → list CallSite → CallSiteOptions → list CallSite.

Definition getCallSites (skip : Z) (stack : list CallSite) (s : State)
    : list Frame * State :=
  let limit := stackTraceLimit s in
  let s := set_stackTraceLimit (limit + skip) s in
  let callSites :=
    chain_callSite (stackTraceLimit s) stack (mkOptions false true skip) in
  let s := set_stackTraceLimit limit s in
  map_cloneCallSite callSites s.

Definition asyncInit (asyncId : Z) (type : string) (triggerAsyncId : Z)
    (stack : list CallSite) (s : State) : Result State :=
  let '(trace, s) := getCallSites 2 stack s in
  trace ←
    (if bool_decide (triggerAsyncId ∈ executionScopeInits s) then
       match traces s !! triggerAsyncId with
       | Some parentTrace => dedup parentTrace (length parentTrace) trace
       | None => Throw TypeError
       end
     else Ok trace);
  let trace :=
    if bool_decide (triggerAsyncId ≠ 0%Z)
    then trace ++ default [] (traces s !! triggerAsyncId)
    else trace in
  let trace := splice (stackTraceLimit s) trace in
  Ok (mkState ({[ asyncId ]} ∪ executionScopeInits s)
              (executionScopeDepth s)
              (<[ asyncId := trace ]> (traces s))
              (stackTraceLimit s) (nextObject s)).

(** The lifecycle events; a scheduling event comes with the
    synchronous call chain it happens under. *)
Inductive Event :=
  | Init (asyncId : Z) (type : string) (triggerAsyncId : Z)
         (stack : list CallSite)
  | Before
  | After
  | Destroy (asyncId : Z).

Definition step (e : Event) (s : State) : Result State :=
  match e with
  | Init asyncId type triggerAsyncId stack =>
      asyncInit asyncId type triggerAsyncId stack s
  | Before => Ok (asyncBefore s)
  | After => Ok (asyncAfter s)
  | Destroy asyncId => Ok (asyncDestroy asyncId s)
  end.

(** The hooks run in order; an exception leaves the run. *)
Fixpoint run (events : list Event) (s : State) : Result State :=
  match events with
  | [] => Ok s
  | e :: rest => s' ← step e s; run rest s'
  end.

End Engine.

(** ** The filter over a trace under construction *)

(** What the filter callback returns for a file name:
    [!name || (name !== 'async_hooks.js' && name !== 'internal/async_hooks.js')] *)
Definition keeps_name (name : JsValue) : bool :=
  negb (truthy name)
  || (negb (strict_eq name (JString "async_hooks.js"))
      && negb (strict_eq name (JString "internal/async_hooks.js"))).

(** [callSite.getFileName()] on an element of the frames array of a
    trace, which after the extend hook is a raw call site or a handle. *)
Definition frame_fileName (callSite : CallSite + Frame) : Result JsValue :=
  match callSite with
  | inl raw => Ok (cs_fileName raw)
  | inr handle => getFileName handle
  end.

(** The attached filter over such an array: [frames.filter(callback)],
    the callback called on the elements in order, an exception of it
    leaving the filter. *)
Fixpoint filter_hook_frames (frames : list (CallSite + Frame))
    : Result (list (CallSite + Frame)) :=
  match frames with
  | [] => Ok []
  | callSite :: rest =>
      match frame_fileName callSite with
      | Ok name =>
          match filter_hook_frames rest with
          | Ok kept => Ok (if keeps_name name then callSite :: kept else kept)
          | Throw e => Throw e
          end
      | Throw e => Throw e
      end
  end.

(** ** Notions the properties are stated with *)

(** The absent value of an accessor is the one [equalCallSite] tests
    for, [null]. *)
Definition absent (v : JsValue) : Prop := v = JNull.

(** Absent as the specification has it: an accessor reports no value,
    be it [null] or [undefined]. *)
Definition no_value (v : JsValue) : Prop := v = JNull ∨ v = JUndefined.

(** The handle [a] answers its three position accessors with [file],
    [line] and [column]. *)
Definition reports (a : Frame) (file line column : JsValue) : Prop :=
  getFileName a = Ok file
  ∧ getLineNumber a = Ok line
  ∧ getColumnNumber a = Ok column.

(** The call site behind the handle has not been reclaimed. *)
Definition live (a : Frame) : Prop := is_Some (deref a).

(** Same position, none of it absent, decided on the call sites behind
    two handles. *)
Definition same_position (a b : Frame) : bool :=
  match deref a, deref b with
  | Some x, Some y =>
      negb (is_null (cs_fileName x))
      && negb (is_null (cs_lineNumber x))
      && negb (is_null (cs_columnNumber x))
      && strict_eq (cs_fileName x) (cs_fileName y)
      && strict_eq (cs_lineNumber x) (cs_lineNumber y)
      && strict_eq (cs_columnNumber x) (cs_columnNumber y)
  | _, _ => false
  end.

(** One parent frame of the walk: the last captured frame goes when it
    is not the only one and the parent frame has its position. *)
Definition walk_step (trace : list Frame) (parentFrame : Frame) : list Frame :=
  match last trace with
  | Some b =>
      if bool_decide (1 < length trace) && same_position parentFrame b
      then removelast trace
      else trace
  | None => trace
  end.

(** The walk over every frame of the parent, last frame first. *)
Definition walk_all (parentTrace trace : list Frame) : list Frame :=
  foldl walk_step trace (reverse parentTrace).

(** The walk as the specification words it, over the parent's frames
    last frame first: it goes on only while more than one captured
    frame remains and the current parent frame equals the last captured
    one. *)
Fixpoint walk_while (parentReversed trace : list Frame) : list Frame :=
  match parentReversed with
  | [] => trace
  | parentFrame :: rest =>
      match last trace with
      | Some b =>
          if bool_decide (1 < length trace) && same_position parentFrame b
          then walk_while rest (removelast trace)
          else trace
      | None => trace
      end
  end.

(** Every stored sequence is within the frame limit. *)
Definition depth_bounded (s : State) : Prop :=
  ∀ id trace, traces s !! id = Some trace →
    (Z.of_nat (length trace) ≤ stackTraceLimit s)%Z.

(** Every handle in the store is alive. *)
Definition store_live (s : State) : Prop :=
  ∀ id trace, traces s !! id = Some trace → Forall live trace.

(** Exits are matched by prior enters: run from nesting depth [depth],
    no [After] comes at depth 0. *)
Fixpoint balanced (depth : Z) (events : list Event) : Prop :=
  match events with
  | [] => True
  | Before :: rest => balanced (depth + 1) rest
  | After :: rest => (0 < depth)%Z ∧ balanced (depth - 1) rest
  | _ :: rest => balanced depth rest
  end.

(** No operation is scheduled under the reserved root identifier. *)
Definition tracks_no_root (e : Event) : Prop :=
  match e with
  | Init asyncId _ _ _ => asyncId ≠ 0%Z
  | _ => True
  end.

(** Every recent init has a stored sequence. *)
Definition recent_tracked (s : State) : Prop :=
  ∀ id, id ∈ executionScopeInits s → is_Some (traces s !! id).

(** The identifiers a run of events leaves tracked, from those tracked
    before it: scheduled and not destroyed since. *)
Fixpoint tracked (events : list Event) (ids : gset Z) : gset Z :=
  match events with
  | [] => ids
  | Init asyncId _ _ _ :: rest => tracked rest ({[ asyncId ]} ∪ ids)
  | Destroy asyncId :: rest => tracked rest (ids ∖ {[ asyncId ]})
  | _ :: rest => tracked rest ids
  end.

(** Enters less exits of a run of events. *)
Fixpoint depth_change (events : list Event) : Z :=
  match events with
  | [] => 0
  | Before :: rest => 1 + depth_change rest
  | After :: rest => depth_change rest - 1
  | _ :: rest => depth_change rest
  end.

Definition is_destroy (e : Event) : Prop :=
  match e with
  | Destroy _ => True
  | _ => False
  end.

(** The file name of an element of a frames array is one of the two
    [async_hooks] sources. *)
Definition internal_name (name : JsValue) : Prop :=
  name = JString "async_hooks.js" ∨ name = JString "internal/async_hooks.js".

#[global] Instance internal_name_dec (name : JsValue) :
  Decision (internal_name name).
Proof. unfold internal_name. apply _. Defined.

(** An element of a frames array reports a file name, and it is none
    of the two [async_hooks] sources. *)
Definition reports_foreign_name (x : CallSite + Frame) : Prop :=
  ∃ name, frame_fileName x = Ok name ∧ ¬ internal_name name.

#[global] Instance reports_foreign_name_dec (x : CallSite + Frame) :
  Decision (reports_foreign_name x).
Proof.
  unfold reports_foreign_name.
  destruct (frame_fileName x) as [name | e].
  - destruct (decide (internal_name name)) as [Hin | Hout].
    + right. intros (name' & [= <-] & H). exact (H Hin).
    + left. exists name. split; [reflexivity | exact Hout].
  - right. intros (name' & H & _). discriminate H.
Defined.

(** ** Sample data *)

Definition site (file : string) (line column : Z) : CallSite :=
  mkCallSite (JString file) (JNumber line) (JNumber column) JNull.

(** A stored parent sequence and a captured sequence: the captured one
    ends in the parent's first frame, not in its last. *)
Definition sample_parent : list Frame :=
  [WeakProxy 1 (site "app.js" 10 3); WeakProxy 2 (site "timers.js" 5 1)].
Definition sample_captured : list Frame :=
  [WeakProxy 3 (site "app.js" 20 7); WeakProxy 4 (site "app.js" 10 3)].

(** A call chain as a scheduling hook sees it: the two frames of the
    instrumentation, then those of the program. *)
Definition sample_stack (program : list CallSite) : list CallSite :=
  site "trace.js" 51 29 :: site "trace.js" 76 17 :: program.

(** The state a run ends in. *)
Definition outcome (r : Result State) : State :=
  match r with
  | Ok s => s
  | Throw _ => initial 0
  end.

(** A timer scheduled from the root, and a promise scheduled with the
    timer as its trigger, one call deeper in the same call chain. *)
Definition schedule_A : Event :=
  Init 1 "TIMER" 0 (sample_stack [site "app.js" 10 3]).
Definition schedule_B : Event :=
  Init 2 "PROMISE" 1 (sample_stack [site "app.js" 20 7; site "app.js" 10 3]).

(** A call site with no file name. *)
Definition nameless : CallSite :=
  mkCallSite JNull (JNumber 1) (JNumber 1) JNull.

(** A call site of a script without a name: the file name is
    [undefined]. *)
Definition unnamed : CallSite :=
  mkCallSite JUndefined (JNumber 1) (JNumber 1) JNull.

(** ** Results and handles *)

Lemma bind_Ok {A B} (f : A → Result B) (m : Result A) (b : B) :
  m ≫= f = Ok b ↔ ∃ a, m = Ok a ∧ f a = Ok b.
Proof.
  destruct m as [a|e]; simpl.
  - split; [eauto | intros (a' & [= <-] & H); exact H].
  - split; [discriminate | intros (a' & H & _); discriminate].
Qed.

Lemma deref_new_WeakRef {V} (this : ObjId) (value : V) :
  deref (new_WeakRef this value) = Some value.
Proof. unfold deref, new_WeakRef; simpl. apply lookup_singleton_eq. Qed.

Lemma survives_deref {V} (w w' : WeakRef V) :
  survives w w' → self w' = self w ∧ deref w' = deref w.
Proof.
  induction 1 as [w | w m' w' lv Hlive [_ Hkeep] _ [IHself IHderef]].
  - done.
  - simpl in *. split; [done |].
    rewrite IHderef. unfold deref; simpl. by apply Hkeep.
Qed.

Lemma accessor_live (a : Frame) (x : CallSite) :
  deref a = Some x →
  getFileName a = Ok (cs_fileName x)
  ∧ getLineNumber a = Ok (cs_lineNumber x)
  ∧ getColumnNumber a = Ok (cs_columnNumber x).
Proof.
  intros H. unfold getFileName, getLineNumber, getColumnNumber, WeakProxy_get.
  rewrite H. done.
Qed.

Lemma accessor_reclaimed (a : Frame) :
  deref a = None →
  getFileName a = Throw TypeError
  ∧ getLineNumber a = Throw TypeError
  ∧ getColumnNumber a = Throw TypeError.
Proof.
  intros H. unfold getFileName, getLineNumber, getColumnNumber, WeakProxy_get.
  rewrite H. done.
Qed.

Lemma reports_inv (a : Frame) (file line column : JsValue) :
  reports a file line column ↔
  ∃ x, deref a = Some x ∧ file = cs_fileName x
       ∧ line = cs_lineNumber x ∧ column = cs_columnNumber x.
Proof.
  unfold reports. destruct (deref a) as [x|] eqn:E.
  - destruct (accessor_live a x E) as (-> & -> & ->). split.
    + intros ([= <-] & [= <-] & [= <-]). eauto.
    + intros (y & [= <-] & -> & -> & ->). done.
  - destruct (accessor_reclaimed a E) as (-> & _). split.
    + intros ([=] & _).
    + intros (y & [=] & _).
Qed.

Lemma equalCallSite_live (a b : Frame) :
  live a → live b → equalCallSite a b = Ok (same_position a b).
Proof.
  intros [x Hx] [y Hy]. unfold equalCallSite, same_position.
  destruct (accessor_live a x Hx) as (-> & -> & ->).
  destruct (accessor_live b y Hy) as (-> & -> & ->).
  rewrite Hx, Hy. simpl.
  destruct (is_null (cs_fileName x)); [done |].
  destruct (is_null (cs_lineNumber x)); [done |].
  destruct (is_null (cs_columnNumber x)); [done |]. simpl.
  destruct (strict_eq (cs_fileName x) (cs_fileName y)); [| done].
  destruct (strict_eq (cs_lineNumber x) (cs_lineNumber y)); done.
Qed.

Lemma equalCallSite_true_live (a b : Frame) :
  equalCallSite a b = Ok true → live a ∧ live b.
Proof.
  unfold equalCallSite, live. intros H.
  destruct (deref a) as [x|] eqn:Hx; cycle 1.
  { destruct (accessor_reclaimed a Hx) as (Ha & _). rewrite Ha in H. done. }
  destruct (accessor_live a x Hx) as (Ha1 & Ha2 & Ha3).
  rewrite Ha1, Ha2, Ha3 in H. simpl in H.
  destruct (is_null _ || is_null _ || is_null _); [done |].
  destruct (deref b) as [y|] eqn:Hy; [eauto |].
  destruct (accessor_reclaimed b Hy) as (Hb & _). rewrite Hb in H. done.
Qed.

Lemma is_null_false (v : JsValue) : is_null v = false ↔ ¬ absent v.
Proof. unfold absent. destruct v; simpl; split; (done || congruence). Qed.

Lemma same_position_true (a b : Frame) :
  same_position a b = true ↔
  ∃ x y, deref a = Some x ∧ deref b = Some y
    ∧ ¬ absent (cs_fileName x) ∧ ¬ absent (cs_lineNumber x)
    ∧ ¬ absent (cs_columnNumber x)
    ∧ cs_fileName x = cs_fileName y
    ∧ cs_lineNumber x = cs_lineNumber y
    ∧ cs_columnNumber x = cs_columnNumber y.
Proof.
  unfold same_position, strict_eq.
  destruct (deref a) as [x|], (deref b) as [y|];
    try (split; [done | by intros (? & ? & ? & ? & _)]).
  rewrite !andb_true_iff, !negb_true_iff, !is_null_false, !bool_decide_eq_true.
  split.
  - intros (((((? & ?) & ?) & ?) & ?) & ?). exists x, y. done.
  - intros (x' & y' & [= <-] & [= <-] & ? & ? & ? & ? & ? & ?). done.
Qed.

(** ** The properties *)

(** C10: a [WeakRef] built over a value [v] dereferences to [v], at
    once and after any number of collections during which the wrapper
    is itself reachable, the one entry of its [WeakMap] being keyed by
    the wrapper; so the [get] trap of a proxy over a call site never
    takes its absent branch while the handle is alive: it finds the
    call site and hands out its accessors bound to it. *)
Theorem weakref_retains_value (V : Type) (this : ObjId) (v : V) :
  deref (new_WeakRef this v) = Some v
  ∧ (∀ w, survives (new_WeakRef this v) w → deref w = Some v)
  ∧ (∀ (this' : ObjId) (callSite : CallSite) (w : Frame) (property : string),
       survives (WeakProxy this' callSite) w →
       deref w = Some callSite
       ∧ WeakProxy_get w property =
           match CallSite_property property with
           | Some value => ABound value callSite
           | None => AUndefined
           end
       ∧ reports w (cs_fileName callSite) (cs_lineNumber callSite)
                   (cs_columnNumber callSite)).
Proof.
  split; [apply deref_new_WeakRef |]. split.
  - intros w Hw. destruct (survives_deref _ _ Hw) as [_ ->].
    apply deref_new_WeakRef.
  - intros this' callSite w property Hw.
    destruct (survives_deref _ _ Hw) as [_ Hd].
    unfold WeakProxy in Hd. rewrite deref_new_WeakRef in Hd.
    split; [done |]. split.
    + unfold WeakProxy_get. by rewrite Hd.
    + by apply accessor_live.
Qed.

(** C6, as amended: [equalCallSite a b] returns true exactly when both
    handles report the same file name, line number and column number
    and none of the three is [null]; a [null] field reported by [a]
    makes it return false whatever [b] is, and a [null] field reported
    by [b] makes it return false whenever [a] reports its fields. *)
Theorem equalCallSite_true_iff (a b : Frame) :
  (equalCallSite a b = Ok true ↔
     ∃ file line column,
       reports a file line column ∧ reports b file line column
       ∧ ¬ absent file ∧ ¬ absent line ∧ ¬ absent column)
  ∧ (∀ fa la ca,
       reports a fa la ca →
       absent fa ∨ absent la ∨ absent ca →
       equalCallSite a b = Ok false)
  ∧ (∀ fa la ca fb lb cb,
       reports a fa la ca → reports b fb lb cb →
       absent fb ∨ absent lb ∨ absent cb →
       equalCallSite a b = Ok false).
Proof.
  split; [| split].
  - split.
    + intros H. destruct (equalCallSite_true_live a b H) as [La Lb].
      rewrite (equalCallSite_live a b La Lb) in H.
      injection H as H. apply same_position_true in H.
      destruct H as (x & y & Hx & Hy & ? & ? & ? & Ef & El & Ec).
      exists (cs_fileName x), (cs_lineNumber x), (cs_columnNumber x).
      split; [by apply accessor_live |].
      split; [rewrite Ef, El, Ec; by apply accessor_live | done].
    + intros (file & line & column & Ha & Hb & ? & ? & ?).
      apply reports_inv in Ha as (x & Hx & -> & -> & ->).
      apply reports_inv in Hb as (y & Hy & ? & ? & ?).
      rewrite equalCallSite_live by (unfold live; eauto).
      f_equal. apply same_position_true. exists x, y. done.
  - intros fa la ca (Hf & Hl & Hc) Habs.
    unfold equalCallSite. rewrite Hf, Hl, Hc. simpl.
    destruct Habs as [-> | [-> | ->]]; simpl; [done | |];
      by rewrite orb_true_r.
  - intros fa la ca fb lb cb Ha Hb Habs.
    apply reports_inv in Ha as (x & Hx & -> & -> & ->).
    apply reports_inv in Hb as (y & Hy & -> & -> & ->).
    rewrite equalCallSite_live by (unfold live; eauto).
    f_equal. apply not_true_is_false. intros H.
    apply same_position_true in H.
    destruct H as (x' & y' & Hx' & Hy' & ? & ? & ? & Ef & El & Ec).
    assert (x' = x) as -> by congruence.
    assert (y' = y) as -> by congruence.
    rewrite <- Ef, <- El, <- Ec in Habs. tauto.
Qed.

(** C6 as stated fails: both handles report [undefined], no value, for
    the file name, and the comparison returns true; and when the call
    site of the second handle has been reclaimed the comparison does
    not return false, it throws. *)
Lemma equalCallSite_true_on_undefined :
  reports (WeakProxy 1 unnamed) JUndefined (JNumber 1) (JNumber 1)
  ∧ reports (WeakProxy 2 unnamed) JUndefined (JNumber 1) (JNumber 1)
  ∧ no_value JUndefined
  ∧ equalCallSite (WeakProxy 1 unnamed) (WeakProxy 2 unnamed) = Ok true
  ∧ equalCallSite (WeakProxy 1 unnamed) (mkWeakRef 2%positive ∅)
    = Throw TypeError.
Proof.
  split; [by repeat split |]. split; [by repeat split |].
  split; [by right |]. split; reflexivity.
Qed.

(** ** The engine, step by step *)

Lemma splice_nonneg {A} (limit : Z) (array : list A) :
  (0 ≤ limit)%Z → splice limit array = take (Z.to_nat limit) array.
Proof.
  intros H. unfold splice.
  destruct (Z.ltb_spec limit 0) as [? | _]; [lia |].
  destruct (Z.le_gt_cases limit (Z.of_nat (length array))) as [Hle | Hgt].
  - by rewrite Z.min_l.
  - rewrite Z.min_r by lia. rewrite Nat2Z.id.
    rewrite !take_ge; [done | lia | lia].
Qed.

Lemma splice_length {A} (limit : Z) (array : list A) :
  (0 ≤ limit)%Z → (Z.of_nat (length (splice limit array)) ≤ limit)%Z.
Proof.
  intros H. rewrite splice_nonneg by done. rewrite length_take. lia.
Qed.

Lemma map_cloneCallSite_spec (callSites : list CallSite) (s : State) :
  executionScopeInits (map_cloneCallSite callSites s).2 = executionScopeInits s
  ∧ executionScopeDepth (map_cloneCallSite callSites s).2 = executionScopeDepth s
  ∧ traces (map_cloneCallSite callSites s).2 = traces s
  ∧ stackTraceLimit (map_cloneCallSite callSites s).2 = stackTraceLimit s
  ∧ deref <$> (map_cloneCallSite callSites s).1 = Some <$> callSites.
Proof.
  revert s. induction callSites as [| callSite rest IH]; intros s; [done |].
  simpl.
  specialize (IH (cloneCallSite callSite s).2). simpl in IH.
  destruct (map_cloneCallSite rest _) as [frames s2]. simpl in *.
  destruct IH as (-> & -> & -> & -> & IH).
  repeat split. unfold WeakProxy. rewrite deref_new_WeakRef.
  f_equal. exact IH.
Qed.

Lemma deref_all_live (frames : list Frame) (callSites : list CallSite) :
  deref <$> frames = Some <$> callSites → Forall live frames.
Proof.
  revert callSites. induction frames as [| a frames IH]; intros [| x callSites] H;
    try done; constructor.
  - injection H as H _. unfold live. by rewrite H.
  - injection H as _ H. by eapply IH.
Qed.

Section EngineFacts.

Variable chain_callSite : Z → list CallSite → CallSiteOptions → list CallSite.

#[local] Abbreviation getCallSites := (getCallSites chain_callSite).
#[local] Abbreviation asyncInit := (asyncInit chain_callSite).
#[local] Abbreviation step := (step chain_callSite).
#[local] Abbreviation run := (run chain_callSite).

Lemma getCallSites_spec (skip : Z) (stack : list CallSite) (s : State) :
  executionScopeInits (getCallSites skip stack s).2 = executionScopeInits s
  ∧ executionScopeDepth (getCallSites skip stack s).2 = executionScopeDepth s
  ∧ traces (getCallSites skip stack s).2 = traces s
  ∧ stackTraceLimit (getCallSites skip stack s).2 = stackTraceLimit s
  ∧ deref <$> (getCallSites skip stack s).1 =
      Some <$> chain_callSite (stackTraceLimit s + skip) stack
                 (mkOptions false true skip).
Proof.
  unfold getCallSites. simpl.
  match goal with |- context [map_cloneCallSite ?c ?t] =>
    destruct (map_cloneCallSite_spec c t) as (-> & -> & -> & -> & ->) end.
  done.
Qed.

(** [asyncInit] over the fields of the state it starts in. *)
Lemma asyncInit_unfold (asyncId : Z) (type : string) (triggerAsyncId : Z)
    (stack : list CallSite) (s : State) :
  asyncInit asyncId type triggerAsyncId stack s =
    (trace ←
       (if bool_decide (triggerAsyncId ∈ executionScopeInits s) then
          match traces s !! triggerAsyncId with
          | Some parentTrace =>
              dedup parentTrace (length parentTrace)
                    (getCallSites 2 stack s).1
          | None => Throw TypeError
          end
        else Ok (getCallSites 2 stack s).1);
     Ok (mkState
           ({[ asyncId ]} ∪ executionScopeInits s)
           (executionScopeDepth s)
           (<[ asyncId :=
                 splice (stackTraceLimit s)
                   (if bool_decide (triggerAsyncId ≠ 0%Z)
                    then trace ++ default [] (traces s !! triggerAsyncId)
                    else trace) ]> (traces s))
           (stackTraceLimit s)
           (nextObject (getCallSites 2 stack s).2))).
Proof.
  unfold asyncInit.
  destruct (getCallSites_spec 2 stack s) as (Hi & Hd & Ht & Hl & _).
  destruct (getCallSites 2 stack s) as [trace s1]. simpl in *.
  rewrite Hi, Hd, Ht, Hl. done.
Qed.

Lemma asyncInit_Ok_inv asyncId type triggerAsyncId stack (s s' : State) :
  asyncInit asyncId type triggerAsyncId stack s = Ok s' →
  ∃ trace,
    executionScopeInits s' = {[ asyncId ]} ∪ executionScopeInits s
    ∧ executionScopeDepth s' = executionScopeDepth s
    ∧ traces s' = <[ asyncId := splice (stackTraceLimit s) trace ]> (traces s)
    ∧ stackTraceLimit s' = stackTraceLimit s.
Proof.
  rewrite asyncInit_unfold. intros H.
  apply bind_Ok in H as (trace & _ & [= <-]). simpl. eauto.
Qed.

(** A property every hook keeps holds after every run. *)
Lemma run_invariant (I : State → Prop) :
  (∀ e s s', I s → step e s = Ok s' → I s') →
  ∀ events s s', I s → run events s = Ok s' → I s'.
Proof.
  intros Hstep events.
  induction events as [| e rest IH]; intros s s' Hs Hrun; simpl in Hrun.
  - by injection Hrun as <-.
  - apply bind_Ok in Hrun as (s1 & H1 & Hrest). eauto.
Qed.

End EngineFacts.

(** ** The dedup walk *)

Lemma removelast_length {A} (l : list A) :
  length (removelast l) = length l - 1.
Proof.
  induction l as [| x [| y l] IH]; [done | done |].
  change (removelast (x :: y :: l)) with (x :: removelast (y :: l)).
  simpl length in *. lia.
Qed.

Lemma removelast_prefix {A} (l : list A) : removelast l `prefix_of` l.
Proof.
  induction l as [| x [| y l] IH].
  - done.
  - by exists [x].
  - change (removelast (x :: y :: l)) with (x :: removelast (y :: l)).
    by apply prefix_cons.
Qed.

Lemma removelast_Forall {A} (P : A → Prop) (l : list A) :
  Forall P l → Forall P (removelast l).
Proof.
  intros H. destruct (removelast_prefix l) as [k Hk].
  rewrite Hk in H. by apply Forall_app in H as [H _].
Qed.

Lemma walk_step_short (trace : list Frame) (parentFrame : Frame) :
  ¬ 1 < length trace → walk_step trace parentFrame = trace.
Proof.
  intros H. unfold walk_step. destruct (last trace); [| done].
  by rewrite bool_decide_eq_false_2.
Qed.

Lemma walk_step_prefix (trace : list Frame) (parentFrame : Frame) :
  walk_step trace parentFrame `prefix_of` trace.
Proof.
  unfold walk_step. destruct (last trace); [| done].
  destruct (_ && _); [apply removelast_prefix | done].
Qed.

Lemma walk_step_length (trace : list Frame) (parentFrame : Frame) :
  1 ≤ length trace → 1 ≤ length (walk_step trace parentFrame).
Proof.
  intros H. unfold walk_step. destruct (last trace); [| done].
  destruct (bool_decide (1 < length trace)) eqn:E; simpl; [| done].
  apply bool_decide_eq_true in E.
  destruct (same_position _ _); [| done]. rewrite removelast_length. lia.
Qed.

Lemma walk_short (frames trace : list Frame) :
  ¬ 1 < length trace → foldl walk_step trace frames = trace.
Proof.
  intros H. induction frames as [| p frames IH]; simpl; [done |].
  by rewrite walk_step_short.
Qed.

Lemma walk_prefix (frames trace : list Frame) :
  foldl walk_step trace frames `prefix_of` trace.
Proof.
  revert trace. induction frames as [| p frames IH]; intros trace; simpl; [done |].
  etrans; [apply IH | apply walk_step_prefix].
Qed.

Lemma walk_length (frames trace : list Frame) :
  1 ≤ length trace → 1 ≤ length (foldl walk_step trace frames).
Proof.
  revert trace. induction frames as [| p frames IH]; intros trace H; simpl; [done |].
  by apply IH, walk_step_length.
Qed.

(** The loop with [i] still to go is the walk over the first [i] frames
    of the parent, last of them first. *)
Lemma dedup_walk (parentTrace : list Frame) (i : nat) (trace : list Frame) :
  i ≤ length parentTrace →
  Forall live parentTrace → Forall live trace →
  dedup parentTrace i trace
  = Ok (foldl walk_step trace (reverse (take i parentTrace))).
Proof.
  intros Hi Hparent. revert trace Hi.
  induction i as [| i IH]; intros trace Hi Htrace.
  - by rewrite take_0.
  - destruct (lookup_lt_is_Some_2 parentTrace i) as [a Ha]; [lia |].
    rewrite (take_S_r _ _ _ Ha), reverse_snoc. simpl.
    rewrite Ha.
    destruct (bool_decide (1 < length trace)) eqn:E.
    + apply bool_decide_eq_true in E.
      destruct (last trace) as [b |] eqn:Hb; cycle 1.
      { apply last_None in Hb. subst trace. simpl in E. lia. }
      assert (live a) as La.
      { exact (Forall_lookup_1 _ _ _ _ Hparent Ha). }
      assert (live b) as Lb.
      { apply last_Some in Hb as [k ->].
        apply Forall_app in Htrace as [_ H]. by inversion H. }
      rewrite (equalCallSite_live a b La Lb).
      unfold walk_step at 2. rewrite Hb, bool_decide_eq_true_2 by done. simpl.
      destruct (same_position a b).
      * apply IH; [lia | by apply removelast_Forall].
      * apply IH; [lia | done].
    + apply bool_decide_eq_false in E.
      rewrite walk_step_short by done. by rewrite walk_short.
Qed.

(** C1, as amended: with every handle alive, the walk visits the frames
    of the parent from the last to the first; at each of them, when
    more than one captured frame remains and the parent frame equals
    the last captured frame, that frame is removed, and whether it was
    or not the walk goes on to the parent frame before; what is left is
    a prefix of the captured sequence, and the last remaining captured
    frame is never removed. *)
Theorem dedup_walks_whole_parent (parentTrace trace : list Frame) :
  Forall live parentTrace → Forall live trace →
  dedup parentTrace (length parentTrace) trace
    = Ok (walk_all parentTrace trace)
  ∧ walk_all parentTrace trace `prefix_of` trace
  ∧ (1 ≤ length trace → 1 ≤ length (walk_all parentTrace trace))
  ∧ (length trace ≤ 1 → walk_all parentTrace trace = trace).
Proof.
  intros Hparent Htrace. unfold walk_all. repeat split.
  - rewrite dedup_walk by done. by rewrite take_ge.
  - apply walk_prefix.
  - apply walk_length.
  - intros H. apply walk_short. lia.
Qed.

Lemma dedup_walks_whole_parent_witness :
  Forall live sample_parent ∧ Forall live sample_captured
  ∧ dedup sample_parent (length sample_parent) sample_captured
    = Ok (walk_all sample_parent sample_captured)
  ∧ walk_all sample_parent sample_captured = take 1 sample_captured.
Proof.
  assert (Forall live sample_parent) as Hp.
  { repeat constructor; by eexists. }
  assert (Forall live sample_captured) as Hc.
  { repeat constructor; by eexists. }
  split; [exact Hp |]. split; [exact Hc |].
  split; [| reflexivity].
  exact (proj1 (dedup_walks_whole_parent sample_parent sample_captured Hp Hc)).
Defined.

(** C1 as stated fails: the last parent frame differs from the last
    captured frame, so a walk that goes on only while they are equal
    removes nothing; the loop goes on to the parent's first frame, finds
    it equal and removes the last captured frame. *)
Lemma dedup_goes_on_after_mismatch :
  walk_while (reverse sample_parent) sample_captured = sample_captured
  ∧ dedup sample_parent (length sample_parent) sample_captured
    = Ok (take 1 sample_captured)
  ∧ dedup sample_parent (length sample_parent) sample_captured
    ≠ Ok (walk_while (reverse sample_parent) sample_captured).
Proof. split; [reflexivity |]. split; [reflexivity | discriminate]. Qed.

(** ** The engine over runs of events *)

Section EngineProperties.

Variable chain_callSite : Z → list CallSite → CallSiteOptions → list CallSite.

#[local] Abbreviation getCallSites := (getCallSites chain_callSite).
#[local] Abbreviation asyncInit := (asyncInit chain_callSite).
#[local] Abbreviation step := (step chain_callSite).
#[local] Abbreviation run := (run chain_callSite).

Lemma step_depth_bounded (e : Event) (s s' : State) :
  (0 ≤ stackTraceLimit s)%Z → depth_bounded s → step e s = Ok s' →
  stackTraceLimit s' = stackTraceLimit s ∧ depth_bounded s'.
Proof.
  intros Hlimit Hs Hstep. destruct e as [asyncId type trigger stack | | | asyncId];
    simpl in Hstep.
  - apply (asyncInit_Ok_inv chain_callSite) in Hstep
      as (trace & _ & _ & Htraces & Hl).
    split; [done |]. intros id stored. rewrite Htraces, Hl.
    destruct (decide (asyncId = id)) as [-> | Hne].
    + rewrite lookup_insert_eq. intros [= <-]. by apply splice_length.
    + rewrite lookup_insert_ne by done. apply Hs.
  - injection Hstep as <-. done.
  - injection Hstep as <-. done.
  - injection Hstep as <-. split; [done |]. intros id stored. simpl.
    intros H. apply lookup_delete_Some in H as [_ H]. by eapply Hs.
Qed.

Lemma run_depth_bounded (limit : Z) (events : list Event) (s : State) :
  (0 ≤ limit)%Z →
  run events (initial limit) = Ok s →
  stackTraceLimit s = limit ∧ depth_bounded s.
Proof.
  intros Hlimit Hrun.
  apply (run_invariant chain_callSite
           (λ s, stackTraceLimit s = limit ∧ depth_bounded s))
    with (events := events) (s := initial limit); [| | exact Hrun].
  - intros e s1 s2 [Hl Hb] Hstep.
    destruct (step_depth_bounded e s1 s2) as [Hl' Hb']; try done; [lia |].
    split; [congruence | done].
  - split; [done |]. intros id trace. simpl. by rewrite lookup_empty.
Qed.

(** C3: after any run of events from the initial state, with a frame
    limit that is a depth (not negative), the limit is the configured
    one and every sequence in the store has at most that many frames. *)
Theorem stored_depth_bounded (limit : Z) (events : list Event) (s : State) :
  (0 ≤ limit)%Z →
  run events (initial limit) = Ok s →
  stackTraceLimit s = limit
  ∧ ∀ id trace, traces s !! id = Some trace →
      (Z.of_nat (length trace) ≤ limit)%Z.
Proof.
  intros Hlimit Hrun.
  destruct (run_depth_bounded limit events s Hlimit Hrun) as [Hl Hb].
  split; [done |]. intros id trace H. rewrite <- Hl. by apply (Hb id).
Qed.

(** C4: when the store holds [Sa] for [A], [A] is not the root value and
    is not among the recent inits, scheduling [B] with trigger [A]
    succeeds and stores for [B] the freshly captured sequence followed
    by [Sa], cut to the frame limit. *)
Theorem ancestry_carried_forward (A B : Z) (type : string)
    (stack : list CallSite) (Sa : list Frame) (s : State) :
  traces s !! A = Some Sa →
  A ∉ executionScopeInits s →
  A ≠ 0%Z →
  (0 ≤ stackTraceLimit s)%Z →
  ∃ s', asyncInit B type A stack s = Ok s'
    ∧ traces s' !! B
      = Some (take (Z.to_nat (stackTraceLimit s))
                   ((getCallSites 2 stack s).1 ++ Sa)).
Proof.
  intros HA Hrecent Hroot Hlimit. rewrite asyncInit_unfold.
  rewrite (bool_decide_eq_false_2 (A ∈ executionScopeInits s)) by done.
  rewrite (bool_decide_eq_true_2 (A ≠ 0%Z)) by done. simpl.
  eexists. split; [reflexivity |]. simpl. rewrite lookup_insert_eq.
  rewrite HA. simpl. by rewrite splice_nonneg.
Qed.

Lemma run_root_not_recent (events : list Event) (s s' : State) :
  Forall tracks_no_root events →
  0%Z ∉ executionScopeInits s →
  run events s = Ok s' →
  0%Z ∉ executionScopeInits s'.
Proof.
  intros Hev. revert s. induction Hev as [| e rest He _ IH]; intros s Hs Hrun;
    simpl in Hrun.
  - by injection Hrun as <-.
  - apply bind_Ok in Hrun as (s1 & Hstep & Hrest).
    apply (IH s1); [| done].
    destruct e as [asyncId type trigger stack | | | asyncId]; simpl in *.
    + apply (asyncInit_Ok_inv chain_callSite) in Hstep as (_ & -> & _).
      rewrite elem_of_union, elem_of_singleton. intros [E | E]; [| done].
      by apply He.
    + injection Hstep as <-. simpl. case_bool_decide; set_solver.
    + by injection Hstep as <-.
    + by injection Hstep as <-.
Qed.

(** C5: in any state reached from the initial one by events that
    schedule no operation under the root identifier, scheduling with
    the root value as trigger succeeds and stores the freshly captured
    sequence, nothing appended, cut to the frame limit. *)
Theorem root_trigger_stores_capture (limit : Z) (events : list Event)
    (s : State) (id : Z) (type : string) (stack : list CallSite) :
  (0 ≤ limit)%Z →
  Forall tracks_no_root events →
  run events (initial limit) = Ok s →
  ∃ s', asyncInit id type 0 stack s = Ok s'
    ∧ traces s' !! id
      = Some (take (Z.to_nat limit) (getCallSites 2 stack s).1).
Proof.
  intros Hlimit Hev Hrun.
  assert (0%Z ∉ executionScopeInits s) as Hroot.
  { apply (run_root_not_recent events (initial limit)); [done | | done].
    simpl. set_solver. }
  destruct (run_depth_bounded limit events s Hlimit Hrun) as [Hl _].
  rewrite asyncInit_unfold.
  rewrite (bool_decide_eq_false_2 (0%Z ∈ executionScopeInits s)) by done.
  rewrite (bool_decide_eq_false_2 (0%Z ≠ 0%Z)) by (intros H; by apply H).
  simpl. eexists. split; [reflexivity |]. simpl. rewrite lookup_insert_eq.
  rewrite Hl. by rewrite splice_nonneg.
Qed.

End EngineProperties.

(** ** Handles in the store stay alive *)

Section StoreLiveness.

Variable chain_callSite : Z → list CallSite → CallSiteOptions → list CallSite.

#[local] Abbreviation getCallSites := (getCallSites chain_callSite).
#[local] Abbreviation asyncInit := (asyncInit chain_callSite).
#[local] Abbreviation step := (step chain_callSite).
#[local] Abbreviation run := (run chain_callSite).

Lemma getCallSites_live (skip : Z) (stack : list CallSite) (s : State) :
  Forall live (getCallSites skip stack s).1.
Proof.
  destruct (getCallSites_spec chain_callSite skip stack s) as (_ & _ & _ & _ & H).
  by eapply deref_all_live.
Qed.

(** With a live store, a scheduling hook whose trigger is among the
    recent inits and has a stored sequence never throws: it stores what
    the walk over the whole parent leaves of the capture, followed by
    the parent. *)
Lemma asyncInit_recent_trigger (asyncId : Z) (type : string)
    (triggerAsyncId : Z) (stack : list CallSite) (parentTrace : list Frame)
    (s : State) :
  store_live s →
  triggerAsyncId ∈ executionScopeInits s →
  traces s !! triggerAsyncId = Some parentTrace →
  ∃ s', asyncInit asyncId type triggerAsyncId stack s = Ok s'
    ∧ traces s' !! asyncId
      = Some (splice (stackTraceLimit s)
                (if bool_decide (triggerAsyncId ≠ 0%Z)
                 then walk_all parentTrace (getCallSites 2 stack s).1
                      ++ parentTrace
                 else walk_all parentTrace (getCallSites 2 stack s).1)).
Proof.
  intros Hlive Hrecent Hparent. rewrite asyncInit_unfold.
  rewrite (bool_decide_eq_true_2 (triggerAsyncId ∈ executionScopeInits s))
    by done.
  rewrite Hparent.
  rewrite dedup_walk; [| done | by eapply Hlive | apply getCallSites_live].
  rewrite take_ge by done. simpl.
  eexists. split; [reflexivity |]. simpl. by rewrite lookup_insert_eq.
Qed.

Lemma asyncInit_stored (asyncId : Z) (type : string) (triggerAsyncId : Z)
    (stack : list CallSite) (s s' : State) :
  store_live s →
  asyncInit asyncId type triggerAsyncId stack s = Ok s' →
  ∃ kept,
    kept `prefix_of` (getCallSites 2 stack s).1
    ∧ traces s'
      = <[ asyncId :=
             splice (stackTraceLimit s)
               (if bool_decide (triggerAsyncId ≠ 0%Z)
                then kept ++ default [] (traces s !! triggerAsyncId)
                else kept) ]> (traces s).
Proof.
  intros Hlive. rewrite asyncInit_unfold. intros H.
  apply bind_Ok in H as (kept & Hkept & [= <-]). simpl.
  exists kept. split; [| done].
  case_bool_decide as Hrecent; [| by injection Hkept as <-].
  destruct (traces s !! triggerAsyncId) as [parentTrace |] eqn:Hparent; [| done].
  rewrite dedup_walk in Hkept;
    [| done | by eapply Hlive | apply getCallSites_live].
  injection Hkept as <-. apply walk_prefix.
Qed.

Lemma splice_Forall {A} (P : A → Prop) (limit : Z) (array : list A) :
  Forall P array → Forall P (splice limit array).
Proof. intros H. unfold splice. by apply Forall_take. Qed.

Lemma step_store_live (e : Event) (s s' : State) :
  store_live s → step e s = Ok s' → store_live s'.
Proof.
  intros Hlive Hstep.
  destruct e as [asyncId type trigger stack | | | asyncId]; simpl in Hstep.
  - destruct (asyncInit_stored _ _ _ _ _ _ Hlive Hstep) as (kept & [k Hk] & Htr).
    intros id trace. rewrite Htr.
    destruct (decide (asyncId = id)) as [-> | Hne].
    + rewrite lookup_insert_eq. intros [= <-]. apply splice_Forall.
      assert (Forall live kept) as Hkept.
      { pose proof (getCallSites_live 2 stack s) as Hcap.
        rewrite Hk in Hcap. by apply Forall_app in Hcap as [Hcap _]. }
      case_bool_decide; [| done]. apply Forall_app. split; [done |].
      destruct (traces s !! trigger) as [parentTrace |] eqn:Hp; simpl.
      * by eapply Hlive.
      * constructor.
    + rewrite lookup_insert_ne by done. apply Hlive.
  - by injection Hstep as <-.
  - by injection Hstep as <-.
  - injection Hstep as <-. intros id trace. simpl.
    intros H. apply lookup_delete_Some in H as [_ H]. by eapply Hlive.
Qed.

Lemma run_store_live (limit : Z) (events : list Event) (s : State) :
  run events (initial limit) = Ok s → store_live s.
Proof.
  apply (run_invariant chain_callSite store_live).
  - apply step_store_live.
  - intros id trace. simpl. by rewrite lookup_empty.
Qed.

End StoreLiveness.

(** ** The synchronous-scope tracker *)

Section ScopeTracker.

Variable chain_callSite : Z → list CallSite → CallSiteOptions → list CallSite.

#[local] Abbreviation step := (step chain_callSite).
#[local] Abbreviation run := (run chain_callSite).

Lemma step_depth (e : Event) (s s' : State) :
  step e s = Ok s' →
  executionScopeDepth s' =
    match e with
    | Before => (executionScopeDepth s + 1)%Z
    | After => (executionScopeDepth s - 1)%Z
    | _ => executionScopeDepth s
    end.
Proof.
  destruct e as [asyncId type trigger stack | | | asyncId]; simpl; intros H.
  - by apply (asyncInit_Ok_inv chain_callSite) in H as (_ & _ & -> & _).
  - by injection H as <-.
  - by injection H as <-.
  - by injection H as <-.
Qed.

(** Along a balanced run the depth never goes below zero, and what is
    left of the run is balanced from the depth reached. *)
Lemma balanced_run (pre rest : list Event) (s s1 : State) :
  (0 ≤ executionScopeDepth s)%Z →
  balanced (executionScopeDepth s) (pre ++ rest) →
  run pre s = Ok s1 →
  (0 ≤ executionScopeDepth s1)%Z ∧ balanced (executionScopeDepth s1) rest.
Proof.
  revert s. induction pre as [| e pre IH]; intros s Hd Hbal Hrun; simpl in Hrun.
  - by injection Hrun as <-.
  - apply bind_Ok in Hrun as (s' & Hstep & Hrun).
    apply step_depth in Hstep.
    apply (IH s'); [| | done];
      destruct e; simpl in Hbal; rewrite Hstep; try done; try lia.
    by destruct Hbal.
Qed.

(** C8: along a run whose exits are matched by prior enters, started at
    depth 0, the depth is never negative; an enter at depth 0 empties
    the recent inits and brings the depth to 1; an enter at any other
    depth, which is then at least 1, and every exit leave the recent
    inits as they are; and no step but the enter at depth 0 takes
    anything out of them. *)
Theorem recent_inits_cleared_on_outermost_enter_only
    (pre post : list Event) (e : Event) (s s1 s2 : State) :
  executionScopeDepth s = 0%Z →
  balanced 0 (pre ++ e :: post) →
  run pre s = Ok s1 →
  step e s1 = Ok s2 →
  (0 ≤ executionScopeDepth s1)%Z
  ∧ (e = Before → executionScopeDepth s1 = 0%Z →
       executionScopeInits s2 = ∅ ∧ executionScopeDepth s2 = 1%Z)
  ∧ (e = Before → executionScopeDepth s1 ≠ 0%Z →
       (1 ≤ executionScopeDepth s1)%Z
       ∧ executionScopeInits s2 = executionScopeInits s1)
  ∧ (e = After →
       (1 ≤ executionScopeDepth s1)%Z
       ∧ executionScopeInits s2 = executionScopeInits s1)
  ∧ (¬ (e = Before ∧ executionScopeDepth s1 = 0%Z) →
       executionScopeInits s1 ⊆ executionScopeInits s2).
Proof.
  intros Hs Hbal Hpre Hstep.
  destruct (balanced_run pre (e :: post) s s1) as [Hd Hrest];
    [lia | by rewrite Hs | done |].
  split; [done |].
  destruct e as [asyncId type trigger stack | | | asyncId]; simpl in Hstep.
  - apply (asyncInit_Ok_inv chain_callSite) in Hstep as (_ & Hi & _).
    repeat split; try done. intros _. rewrite Hi. apply union_subseteq_r.
  - injection Hstep as <-. unfold asyncBefore. simpl.
    case_bool_decide as E.
    + repeat split; try done; [lia |]. intros H. destruct H. done.
    + repeat split; try done; lia.
  - injection Hstep as <-. simpl in *. destruct Hrest as [Hpos _].
    repeat split; try done. lia.
  - injection Hstep as <-. simpl. repeat split; done.
Qed.

End ScopeTracker.

(** ** Teardown and composition *)

(** C7: after [asyncDestroy id] the store has no entry for [id] and the
    extend hook, run for [id], appends nothing to the frames it is
    given; when the store had no entry for [id] the state is left as it
    was. *)
Theorem destroy_cleans_up (id : Z) (s : State) :
  traces (asyncDestroy id s) !! id = None
  ∧ (∀ frames, extend_hook id frames (asyncDestroy id s) = frames)
  ∧ (traces s !! id = None → asyncDestroy id s = s).
Proof.
  split; [apply lookup_delete_eq |]. split.
  - intros frames. unfold extend_hook. simpl.
    rewrite lookup_delete_eq. simpl. apply app_nil_r.
  - intros H. destruct s as [inits depth store limit next]. unfold asyncDestroy.
    simpl in *. by rewrite delete_id.
Qed.

(** ** Frame capture *)

Lemma captureFrames_raised (limit skip : Z) (stack : list CallSite) :
  (0 ≤ limit)%Z → (0 ≤ skip)%Z →
  captureFrames (limit + skip) stack (mkOptions false true skip)
  = filter_hook (take (Z.to_nat limit) (drop (Z.to_nat skip) stack)).
Proof.
  intros Hl Hk. unfold captureFrames. simpl.
  rewrite take_drop_commute. do 3 f_equal. lia.
Qed.

Lemma filter_hook_length (frames : list CallSite) :
  length (filter_hook frames) ≤ length frames.
Proof. apply List.filter_length_le. Qed.

(** C9: whatever the frame source, [getCallSites skip] runs it under a
    frame limit raised by exactly [skip], hands out live handles on the
    call sites it returned, in order, and leaves the frame limit as it
    found it.  With the frame source of the specification and a limit
    and skip count that are not negative, the handles are on the frames
    of the call chain after its [skip] innermost ones, as many of them
    as the limit allows, less those the attached filter removes; had
    the limit not been raised, [skip] fewer frames of the chain would
    have been seen. *)
Theorem getCallSites_limit_raised_and_restored
    (chain_callSite : Z → list CallSite → CallSiteOptions → list CallSite)
    (skip : Z) (stack : list CallSite) (s : State) :
  stackTraceLimit (getCallSites chain_callSite skip stack s).2
    = stackTraceLimit s
  ∧ deref <$> (getCallSites chain_callSite skip stack s).1
    = Some <$> chain_callSite (stackTraceLimit s + skip)%Z stack
                 (mkOptions false true skip)
  ∧ ((0 ≤ stackTraceLimit s)%Z → (0 ≤ skip)%Z →
     deref <$> (getCallSites captureFrames skip stack s).1
       = Some <$> filter_hook
                    (take (Z.to_nat (stackTraceLimit s))
                          (drop (Z.to_nat skip) stack))
     ∧ length (getCallSites captureFrames skip stack s).1
       ≤ Z.to_nat (stackTraceLimit s)
     ∧ captureFrames (stackTraceLimit s) stack (mkOptions false true skip)
       = filter_hook
           (take (Z.to_nat (stackTraceLimit s) - Z.to_nat skip)
                 (drop (Z.to_nat skip) stack))).
Proof.
  destruct (getCallSites_spec chain_callSite skip stack s)
    as (_ & _ & _ & Hl & Hframes).
  split; [done |]. split; [done |]. intros Hlimit Hskip.
  destruct (getCallSites_spec captureFrames skip stack s)
    as (_ & _ & _ & _ & Hcap).
  rewrite captureFrames_raised in Hcap by done.
  split; [done |]. split.
  - apply (f_equal length) in Hcap. rewrite !length_fmap in Hcap.
    rewrite Hcap. etrans; [apply filter_hook_length |].
    rewrite length_take. lia.
  - unfold captureFrames. simpl. f_equal.
    destruct (decide (Z.to_nat skip ≤ Z.to_nat (stackTraceLimit s))) as [Hle | Hgt].
    + rewrite take_drop_commute. do 2 f_equal. lia.
    + replace (Z.to_nat (stackTraceLimit s) - Z.to_nat skip) with 0 by lia.
      rewrite take_0. apply drop_ge. rewrite length_take. lia.
Qed.

(** ** Triggers without a stored sequence *)

(** A trigger with no stored sequence that is not among the recent
    inits: nothing is appended and the hook completes. *)
Lemma asyncInit_untracked_trigger
    (chain_callSite : Z → list CallSite → CallSiteOptions → list CallSite)
    (asyncId : Z) (type : string) (triggerAsyncId : Z)
    (stack : list CallSite) (s : State) :
  traces s !! triggerAsyncId = None →
  triggerAsyncId ∉ executionScopeInits s →
  ∃ s', asyncInit chain_callSite asyncId type triggerAsyncId stack s = Ok s'
    ∧ traces s' !! asyncId
      = Some (splice (stackTraceLimit s)
                     (getCallSites chain_callSite 2 stack s).1).
Proof.
  intros Hnone Hrecent. rewrite asyncInit_unfold.
  rewrite (bool_decide_eq_false_2 (triggerAsyncId ∈ executionScopeInits s))
    by done.
  simpl. eexists. split; [reflexivity |]. simpl.
  rewrite lookup_insert_eq, Hnone. simpl.
  case_bool_decide; by rewrite ?app_nil_r.
Qed.

(** A trigger with no stored sequence that is still among the recent
    inits: reading the length of its sequence throws. *)
Lemma asyncInit_recent_trigger_destroyed
    (chain_callSite : Z → list CallSite → CallSiteOptions → list CallSite)
    (asyncId : Z) (type : string) (triggerAsyncId : Z)
    (stack : list CallSite) (s : State) :
  traces s !! triggerAsyncId = None →
  triggerAsyncId ∈ executionScopeInits s →
  asyncInit chain_callSite asyncId type triggerAsyncId stack s
  = Throw TypeError.
Proof.
  intros Hnone Hrecent. rewrite asyncInit_unfold.
  rewrite (bool_decide_eq_true_2 (triggerAsyncId ∈ executionScopeInits s))
    by done.
  by rewrite Hnone.
Qed.

(** C2, where the code departs from it: the timer is scheduled and
    destroyed, and the promise it triggers is scheduled before any
    outermost enter has emptied the recent inits; the timer is still
    among them, its sequence is gone, and the hook throws. *)
Theorem asyncInit_throws_after_trigger_destroyed :
  run captureFrames [schedule_A; Destroy 1; schedule_B] (initial 10)
  = Throw TypeError.
Proof. reflexivity. Qed.

(** ** The properties on the sample data *)

Lemma weakref_retains_value_witness :
  survives (WeakProxy 1 nameless) (WeakProxy 1 nameless)
  ∧ deref (WeakProxy 1 nameless) = Some nameless
  ∧ reports (WeakProxy 1 nameless) JNull (JNumber 1) (JNumber 1).
Proof.
  assert (survives (WeakProxy 1 nameless) (WeakProxy 1 nameless)) as Hs.
  { apply (survives_step _ (_weakMap (WeakProxy 1 nameless)) _
             (λ k, k = 1%positive)).
    - reflexivity.
    - split; [reflexivity | intros k _; reflexivity].
    - apply survives_refl. }
  split; [exact Hs |].
  destruct (weakref_retains_value CallSite 1%positive nameless)
    as (_ & _ & H).
  destruct (H 1%positive nameless (WeakProxy 1 nameless) "getFileName" Hs)
    as (Hd & _ & Hr).
  split; [exact Hd | exact Hr].
Defined.

Lemma equalCallSite_true_iff_witness :
  reports (WeakProxy 1 nameless) JNull (JNumber 1) (JNumber 1)
  ∧ reports (WeakProxy 2 nameless) JNull (JNumber 1) (JNumber 1)
  ∧ absent JNull
  ∧ equalCallSite (WeakProxy 1 nameless) (WeakProxy 2 nameless) = Ok false
  ∧ equalCallSite (WeakProxy 3 (site "app.js" 10 3)) (WeakProxy 2 nameless)
    = Ok false.
Proof.
  assert (∀ this, reports (WeakProxy this nameless) JNull (JNumber 1) (JNumber 1))
    as Hr.
  { intros this. apply reports_inv. exists nameless.
    unfold WeakProxy. rewrite deref_new_WeakRef. done. }
  split; [apply Hr |]. split; [apply Hr |]. split; [reflexivity |]. split.
  - apply (proj1 (proj2 (equalCallSite_true_iff (WeakProxy 1 nameless)
                           (WeakProxy 2 nameless)))
             JNull (JNumber 1) (JNumber 1) (Hr 1%positive)).
    left. reflexivity.
  - apply (proj2 (proj2 (equalCallSite_true_iff
                           (WeakProxy 3 (site "app.js" 10 3))
                           (WeakProxy 2 nameless)))
             (JString "app.js") (JNumber 10) (JNumber 3)
             JNull (JNumber 1) (JNumber 1)
             (conj eq_refl (conj eq_refl eq_refl)) (Hr 2%positive)).
    left. reflexivity.
Defined.

Lemma stored_depth_bounded_witness :
  (0 ≤ 2)%Z
  ∧ run captureFrames [schedule_A; schedule_B] (initial 2)
    = Ok (outcome (run captureFrames [schedule_A; schedule_B] (initial 2)))
  ∧ length <$> traces (outcome (run captureFrames [schedule_A; schedule_B]
                                    (initial 2))) !! 2%Z
    = Some 2
  ∧ ∀ id trace,
      traces (outcome (run captureFrames [schedule_A; schedule_B] (initial 2)))
        !! id = Some trace →
      (Z.of_nat (length trace) ≤ 2)%Z.
Proof.
  split; [lia |]. split; [reflexivity |]. split; [reflexivity |].
  apply (stored_depth_bounded captureFrames 2 [schedule_A; schedule_B]);
    [lia | reflexivity].
Defined.

Lemma ancestry_carried_forward_witness :
  ∃ s',
    asyncInit captureFrames 2 "PROMISE" 1
      (sample_stack [site "app.js" 20 7])
      (outcome (run captureFrames [schedule_A; Before] (initial 10)))
    = Ok s'
    ∧ deref <$> default [] (traces s' !! 2%Z)
      = [Some (site "app.js" 20 7); Some (site "app.js" 10 3)].
Proof.
  destruct (ancestry_carried_forward captureFrames 1 2 "PROMISE"
              (sample_stack [site "app.js" 20 7])
              [WeakProxy 1 (site "app.js" 10 3)]
              (outcome (run captureFrames [schedule_A; Before] (initial 10))))
    as (s' & Hs' & Hstored).
  - reflexivity.
  - apply (bool_decide_unpack _). exact I.
  - discriminate.
  - vm_compute. discriminate.
  - exists s'. split; [exact Hs' |]. rewrite Hstored. reflexivity.
Defined.

Lemma root_trigger_stores_capture_witness :
  ∃ s',
    asyncInit captureFrames 3 "TIMER" 0
      (sample_stack [site "app.js" 30 1])
      (outcome (run captureFrames [schedule_A; schedule_B; Before] (initial 10)))
    = Ok s'
    ∧ deref <$> default [] (traces s' !! 3%Z) = [Some (site "app.js" 30 1)].
Proof.
  destruct (root_trigger_stores_capture captureFrames 10
              [schedule_A; schedule_B; Before]
              (outcome (run captureFrames [schedule_A; schedule_B; Before]
                            (initial 10)))
              3 "TIMER" (sample_stack [site "app.js" 30 1]))
    as (s' & Hs' & Hstored).
  - lia.
  - repeat constructor; discriminate.
  - reflexivity.
  - exists s'. split; [exact Hs' |]. rewrite Hstored. reflexivity.
Defined.

Lemma destroy_cleans_up_witness :
  traces (initial 10) !! 5%Z = None
  ∧ asyncDestroy 5 (initial 10) = initial 10.
Proof.
  split; [reflexivity |].
  apply (proj2 (proj2 (destroy_cleans_up 5 (initial 10)))). reflexivity.
Defined.

Lemma recent_inits_cleared_on_outermost_enter_only_witness :
  executionScopeInits
    (outcome (run captureFrames [Before; schedule_A; After] (initial 10)))
    = {[ 1%Z ]}
  ∧ executionScopeDepth
      (outcome (run captureFrames [Before; schedule_A; After] (initial 10)))
    = 0%Z
  ∧ executionScopeInits
      (asyncBefore
         (outcome (run captureFrames [Before; schedule_A; After] (initial 10))))
    = ∅.
Proof.
  split; [reflexivity |]. split; [reflexivity |].
  destruct (recent_inits_cleared_on_outermost_enter_only captureFrames
              [Before; schedule_A; After] [schedule_B; After] Before
              (initial 10)
              (outcome (run captureFrames [Before; schedule_A; After]
                            (initial 10)))
              (asyncBefore
                 (outcome (run captureFrames [Before; schedule_A; After]
                               (initial 10)))))
    as (_ & Hclear & _).
  - reflexivity.
  - simpl. lia.
  - reflexivity.
  - reflexivity.
  - apply Hclear; reflexivity.
Defined.

Lemma getCallSites_limit_raised_and_restored_witness :
  (0 ≤ stackTraceLimit (initial 1))%Z ∧ (0 ≤ 2)%Z
  ∧ deref <$> (getCallSites captureFrames 2
                 (sample_stack [site "app.js" 20 7; site "app.js" 10 3])
                 (initial 1)).1
    = [Some (site "app.js" 20 7)]
  ∧ captureFrames 1 (sample_stack [site "app.js" 20 7; site "app.js" 10 3])
      (mkOptions false true 2)
    = [].
Proof.
  assert (0 ≤ stackTraceLimit (initial 1))%Z as Hl by (simpl; lia).
  assert (0 ≤ 2)%Z as Hk by lia.
  split; [exact Hl |]. split; [exact Hk |].
  destruct (getCallSites_limit_raised_and_restored captureFrames 2
              (sample_stack [site "app.js" 20 7; site "app.js" 10 3])
              (initial 1))
    as (_ & _ & H).
  destruct (H Hl Hk) as (Hframes & _ & Hstarved).
  split; [rewrite Hframes; reflexivity |].
  change 1%Z with (stackTraceLimit (initial 1)) at 1.
  rewrite Hstarved. reflexivity.
Defined.

(** * Further properties of the module *)

(** ** Frame equality as a relation *)

Lemma same_position_sym (a b : Frame) : same_position a b = same_position b a.
Proof.
  apply Bool.eq_iff_eq_true. rewrite !same_position_true.
  split; intros (x & y & Hx & Hy & ? & ? & ? & Ef & El & Ec);
    exists y, x; rewrite <- ?Ef, <- ?El, <- ?Ec in *;
    repeat split; try done; congruence.
Qed.

(** X1: on two handles whose call sites are alive [equalCallSite] gives
    the same answer whichever comes first, although it tests only its
    first argument for [null]. *)
Theorem equalCallSite_symmetric (a b : Frame) :
  live a → live b → equalCallSite a b = equalCallSite b a.
Proof.
  intros La Lb. rewrite (equalCallSite_live a b La Lb).
  rewrite (equalCallSite_live b a Lb La). f_equal. apply same_position_sym.
Qed.

(** X2: frames found equal to a common frame are found equal: a true
    answer of [equalCallSite] is transitive. *)
Theorem equalCallSite_transitive (a b c : Frame) :
  equalCallSite a b = Ok true →
  equalCallSite b c = Ok true →
  equalCallSite a c = Ok true.
Proof.
  intros Hab Hbc.
  destruct (equalCallSite_true_live a b Hab) as [La Lb].
  destruct (equalCallSite_true_live b c Hbc) as [_ Lc].
  rewrite equalCallSite_live in Hab, Hbc |- * by done.
  injection Hab as Hab. injection Hbc as Hbc. f_equal.
  apply same_position_true in Hab
    as (x & y & Hx & Hy & ? & ? & ? & Ef & El & Ec).
  apply same_position_true in Hbc
    as (y' & z & Hy' & Hz & _ & _ & _ & Ef' & El' & Ec').
  assert (y' = y) as -> by congruence.
  apply same_position_true. exists x, z.
  repeat split; try done; congruence.
Qed.

(** X3: when the first handle reports an absent field the answer is
    false without the second handle being asked, whatever has become of
    it; when the first reports three fields of which none is absent and
    the call site of the second has been reclaimed, the comparison
    throws. *)
Theorem equalCallSite_short_circuit (a b : Frame) (file line column : JsValue) :
  reports a file line column →
  (absent file ∨ absent line ∨ absent column → equalCallSite a b = Ok false)
  ∧ (¬ absent file → ¬ absent line → ¬ absent column → deref b = None →
     equalCallSite a b = Throw TypeError).
Proof.
  intros (Hf & Hl & Hc). unfold equalCallSite. rewrite Hf, Hl, Hc. simpl.
  split.
  - intros [-> | [-> | ->]]; simpl; [done | |].
    + by rewrite orb_true_r.
    + by rewrite orb_true_r.
  - intros Af Al Ac Hb.
    apply is_null_false in Af, Al, Ac. rewrite Af, Al, Ac. simpl.
    destruct (accessor_reclaimed b Hb) as (-> & _). done.
Qed.

(** ** The dedup loop on any handles *)

Lemma dedup_bounds (parentTrace : list Frame) (i : nat)
    (trace kept : list Frame) :
  dedup parentTrace i trace = Ok kept →
  kept `prefix_of` trace
  ∧ length trace ≤ length kept + i
  ∧ (1 ≤ length trace → 1 ≤ length kept).
Proof.
  revert trace. induction i as [| i IH]; intros trace H; simpl in H.
  - injection H as <-. repeat split; [done | lia | done].
  - case_bool_decide as Hlen; cycle 1.
    { injection H as <-. repeat split; [done | lia | done]. }
    destruct (parentTrace !! i) as [a |]; [| done].
    destruct (last trace) as [b |]; [| done].
    destruct (equalCallSite a b) as [[|] | e]; [| | done].
    + destruct (IH _ H) as (Hp & Hl & Hne).
      pose proof (removelast_length trace) as Hr.
      repeat split.
      * etrans; [exact Hp | apply removelast_prefix].
      * lia.
      * intros _. apply Hne. lia.
    + destruct (IH _ H) as (Hp & Hl & Hne). repeat split; [done | lia | done].
Qed.

(** X4: whatever the handles, when the dedup loop returns it returns a
    prefix of the captured sequence, shorter by at most one frame for
    each parent frame visited, and not empty unless the captured
    sequence was. *)
Theorem dedup_result_bounds (parentTrace : list Frame) (i : nat)
    (trace kept : list Frame) :
  dedup parentTrace i trace = Ok kept →
  kept `prefix_of` trace
  ∧ length trace ≤ length kept + i
  ∧ (1 ≤ length trace → 1 ≤ length kept).
Proof. apply dedup_bounds. Qed.

Lemma walk_step_no_match (trace : list Frame) (p : Frame) :
  (∀ b, last trace = Some b → same_position p b = false) →
  walk_step trace p = trace.
Proof.
  intros H. unfold walk_step. destruct (last trace) as [b |]; [| done].
  rewrite (H b) by done. by rewrite andb_false_r.
Qed.

(** X5: when no frame of the parent has the position of the last
    captured frame, the loop leaves the captured sequence as it is. *)
Theorem dedup_no_match (parentTrace trace : list Frame) :
  Forall live parentTrace → Forall live trace →
  (∀ p b, p ∈ parentTrace → last trace = Some b → same_position p b = false) →
  dedup parentTrace (length parentTrace) trace = Ok trace.
Proof.
  intros Hp Ht Hno. rewrite dedup_walk by done. rewrite take_ge by done.
  f_equal.
  assert (∀ p, p ∈ reverse parentTrace →
               ∀ b, last trace = Some b → same_position p b = false) as H.
  { intros p Hin b Hb. apply (Hno p b); [| done]. by apply elem_of_reverse. }
  clear Hno. induction (reverse parentTrace) as [| p rest IH]; simpl; [done |].
  rewrite walk_step_no_match.
  - apply IH. intros q Hq. apply H. by right.
  - apply H. by left.
Qed.

(** ** What a scheduling hook does to the state *)

Lemma dedup_short (parentTrace : list Frame) (i : nat) (trace : list Frame) :
  length trace ≤ 1 → dedup parentTrace i trace = Ok trace.
Proof.
  intros H. destruct i as [| i]; simpl; [done |].
  rewrite bool_decide_eq_false_2 by lia. done.
Qed.

Lemma take_app_take {A} (n : nat) (c x : list A) :
  take n (c ++ take n x) = take n (c ++ x).
Proof.
  rewrite !take_app. f_equal. rewrite take_take. f_equal. lia.
Qed.

Section SchedulingHook.

Variable chain_callSite : Z → list CallSite → CallSiteOptions → list CallSite.

#[local] Abbreviation getCallSites := (getCallSites chain_callSite).
#[local] Abbreviation asyncInit := (asyncInit chain_callSite).
#[local] Abbreviation step := (step chain_callSite).
#[local] Abbreviation run := (run chain_callSite).

(** X6: a scheduling hook that returns has put its identifier among
    the recent inits and given it a stored sequence; it has changed no
    other identifier's sequence, nor the nesting depth, nor the frame
    limit. *)
Theorem asyncInit_touches_only_its_id (asyncId : Z) (type : string)
    (triggerAsyncId : Z) (stack : list CallSite) (s s' : State) :
  asyncInit asyncId type triggerAsyncId stack s = Ok s' →
  executionScopeInits s' = {[ asyncId ]} ∪ executionScopeInits s
  ∧ executionScopeDepth s' = executionScopeDepth s
  ∧ stackTraceLimit s' = stackTraceLimit s
  ∧ is_Some (traces s' !! asyncId)
  ∧ ∀ other, other ≠ asyncId → traces s' !! other = traces s !! other.
Proof.
  intros H.
  apply (asyncInit_Ok_inv chain_callSite) in H as (trace & Hi & Hd & Ht & Hl).
  repeat split; try done.
  - rewrite Ht, lookup_insert_eq. by eexists.
  - intros other Hne. rewrite Ht. by rewrite lookup_insert_ne.
Qed.

(** X7: in a state reached from the initial one, a scheduling hook
    throws in one case only: its trigger is among the recent inits and
    has no stored sequence. *)
Theorem asyncInit_throws_iff (limit : Z) (events : list Event) (s : State)
    (asyncId : Z) (type : string) (triggerAsyncId : Z) (stack : list CallSite) :
  run events (initial limit) = Ok s →
  (asyncInit asyncId type triggerAsyncId stack s = Throw TypeError
   ↔ triggerAsyncId ∈ executionScopeInits s
     ∧ traces s !! triggerAsyncId = None).
Proof.
  intros Hrun.
  pose proof (run_store_live chain_callSite limit events s Hrun) as Hlive.
  split.
  - intros H.
    destruct (decide (triggerAsyncId ∈ executionScopeInits s)) as [Hin | Hout].
    + split; [done |].
      destruct (traces s !! triggerAsyncId) as [parentTrace |] eqn:Hp; [| done].
      destruct (asyncInit_recent_trigger chain_callSite asyncId type
                  triggerAsyncId stack parentTrace s Hlive Hin Hp)
        as (s' & Hs' & _).
      rewrite Hs' in H. done.
    + rewrite asyncInit_unfold in H.
      rewrite (bool_decide_eq_false_2 (triggerAsyncId ∈ executionScopeInits s))
        in H by done.
      done.
  - intros [Hin Hnone]. by apply asyncInit_recent_trigger_destroyed.
Qed.

Lemma step_recent_tracked (e : Event) (s : State) :
  store_live s → recent_tracked s → ¬ is_destroy e →
  ∃ s', step e s = Ok s' ∧ recent_tracked s'.
Proof.
  intros Hlive Hrec He.
  destruct e as [asyncId type trigger stack | | | asyncId]; simpl.
  - assert (∃ s', asyncInit asyncId type trigger stack s = Ok s') as [s' Hs'].
    { destruct (decide (trigger ∈ executionScopeInits s)) as [Hin | Hout].
      - destruct (Hrec trigger Hin) as [parentTrace Hp].
        destruct (asyncInit_recent_trigger chain_callSite asyncId type trigger
                    stack parentTrace s Hlive Hin Hp) as (s' & Hs' & _).
        eauto.
      - rewrite asyncInit_unfold.
        rewrite (bool_decide_eq_false_2 (trigger ∈ executionScopeInits s))
          by done.
        simpl. eauto. }
    exists s'. split; [done |].
    apply (asyncInit_Ok_inv chain_callSite) in Hs'
      as (trace & Hi & _ & Ht & _).
    intros id. rewrite Hi, Ht, elem_of_union, elem_of_singleton.
    destruct (decide (asyncId = id)) as [-> | Hne].
    + rewrite lookup_insert_eq. by eexists.
    + rewrite lookup_insert_ne by done. intros [-> | Hin]; [done |]. by apply Hrec.
  - eexists. split; [done |]. intros id. simpl.
    case_bool_decide; [by rewrite elem_of_empty | apply Hrec].
  - eexists. split; [done |]. exact Hrec.
  - done.
Qed.

(** X8: a run of events without a destroy event never throws. *)
Theorem run_without_destroy_returns (limit : Z) (events : list Event) :
  Forall (λ e, ¬ is_destroy e) events →
  ∃ s, run events (initial limit) = Ok s.
Proof.
  intros Hev.
  assert (∀ s, store_live s → recent_tracked s → ∃ s', run events s = Ok s')
    as H.
  { induction Hev as [| e rest He _ IH]; intros s Hlive Hrec; simpl.
    - eauto.
    - destruct (step_recent_tracked e s Hlive Hrec He) as (s1 & Hs1 & Hrec1).
      rewrite Hs1. simpl. apply IH; [| done].
      by eapply (step_store_live chain_callSite). }
  apply H.
  - intros id trace. simpl. by rewrite lookup_empty.
  - intros id. simpl. by rewrite elem_of_empty.
Qed.

End SchedulingHook.

(** ** What a scheduling hook stores *)

Lemma walk_repeated_tail (parentTrace own tail : list Frame) :
  own ≠ [] →
  Forall2 (λ p t, same_position p t = true) parentTrace tail →
  walk_all parentTrace (own ++ tail) = own.
Proof.
  intros Hown. revert tail.
  induction parentTrace as [| p parentTrace IH] using rev_ind; intros tail H.
  - apply Forall2_nil_inv_l in H as ->. by rewrite app_nil_r.
  - apply Forall2_app_inv_l in H as (tail1 & tail2 & H1 & H2 & ->).
    apply Forall2_cons_inv_l in H2 as (t & rest & Hpt & Hrest & ->).
    apply Forall2_nil_inv_l in Hrest as ->.
    unfold walk_all. rewrite reverse_snoc. simpl.
    replace (walk_step (own ++ tail1 ++ [t]) p) with (own ++ tail1).
    { apply IH, H1. }
    unfold walk_step. rewrite app_assoc, last_snoc, Hpt.
    rewrite bool_decide_eq_true_2.
    + simpl. by rewrite removelast_last.
    + rewrite !length_app. simpl. destruct own; [done | simpl; lia].
Qed.

Section StoredSequence.

Variable chain_callSite : Z → list CallSite → CallSiteOptions → list CallSite.

#[local] Abbreviation getCallSites := (getCallSites chain_callSite).
#[local] Abbreviation asyncInit := (asyncInit chain_callSite).
#[local] Abbreviation run := (run chain_callSite).

Lemma asyncInit_kept (asyncId : Z) (type : string) (triggerAsyncId : Z)
    (stack : list CallSite) (s s' : State) :
  asyncInit asyncId type triggerAsyncId stack s = Ok s' →
  ∃ kept,
    kept `prefix_of` (getCallSites 2 stack s).1
    ∧ (1 ≤ length (getCallSites 2 stack s).1 → 1 ≤ length kept)
    ∧ traces s' !! asyncId
      = Some (splice (stackTraceLimit s)
                (if bool_decide (triggerAsyncId ≠ 0%Z)
                 then kept ++ default [] (traces s !! triggerAsyncId)
                 else kept)).
Proof.
  rewrite asyncInit_unfold. intros H.
  apply bind_Ok in H as (kept & Hkept & [= <-]). simpl.
  exists kept. rewrite lookup_insert_eq.
  case_bool_decide as Hrecent.
  - destruct (traces s !! triggerAsyncId) as [parentTrace |]; [| done].
    apply dedup_bounds in Hkept as (Hp & _ & Hne). done.
  - injection Hkept as <-. done.
Qed.

(** X9: with a frame limit of at least one, the first frame of the
    sequence a scheduling hook stores is the first, innermost, frame it
    captured, whatever the trigger and the dedup walk. *)
Theorem stored_starts_with_capture (asyncId : Z) (type : string)
    (triggerAsyncId : Z) (stack : list CallSite) (s s' : State) (f : Frame) :
  (1 ≤ stackTraceLimit s)%Z →
  asyncInit asyncId type triggerAsyncId stack s = Ok s' →
  (getCallSites 2 stack s).1 !! 0 = Some f →
  ∃ stored, traces s' !! asyncId = Some stored ∧ stored !! 0 = Some f.
Proof.
  intros Hlimit H Hf.
  destruct (asyncInit_kept _ _ _ _ _ _ H) as (kept & Hp & Hne & ->).
  eexists. split; [reflexivity |].
  assert (1 ≤ length kept) as Hk.
  { apply Hne. apply lookup_lt_Some in Hf. lia. }
  assert (kept !! 0 = Some f) as Hk0.
  { rewrite (prefix_lookup_lt kept (getCallSites 2 stack s).1 0); [done | lia | done]. }
  rewrite splice_nonneg by lia. rewrite lookup_take_lt by lia.
  case_bool_decide; [| done]. by rewrite lookup_app_l by lia.
Qed.

(** X10: in a state reached from the initial one, when the trigger is
    among the recent inits and the captured sequence ends in a frame by
    frame repetition of the trigger's whole stored sequence, after at
    least one frame of its own, the repetition is dropped: what is
    stored is the frames of its own followed by the trigger's sequence
    once, cut at the frame limit. *)
Theorem repeated_tail_stored_once (limit : Z) (events : list Event) (s : State)
    (asyncId : Z) (type : string) (triggerAsyncId : Z) (stack : list CallSite)
    (parentTrace own tail : list Frame) :
  run events (initial limit) = Ok s →
  triggerAsyncId ∈ executionScopeInits s →
  triggerAsyncId ≠ 0%Z →
  traces s !! triggerAsyncId = Some parentTrace →
  (getCallSites 2 stack s).1 = own ++ tail →
  own ≠ [] →
  Forall2 (λ p t, same_position p t = true) parentTrace tail →
  ∃ s', asyncInit asyncId type triggerAsyncId stack s = Ok s'
    ∧ traces s' !! asyncId
      = Some (splice (stackTraceLimit s) (own ++ parentTrace)).
Proof.
  intros Hrun Hin Hroot Hp Hcap Hown Htail.
  pose proof (run_store_live chain_callSite limit events s Hrun) as Hlive.
  destruct (asyncInit_recent_trigger chain_callSite asyncId type
              triggerAsyncId stack parentTrace s Hlive Hin Hp)
    as (s' & Hs' & Hstored).
  exists s'. split; [done |]. rewrite Hstored.
  rewrite bool_decide_eq_true_2 by done.
  by rewrite Hcap, walk_repeated_tail.
Qed.

(** X11: a captured sequence of one frame or none is never trimmed, and
    no handle is compared: with a trigger that is not the root value
    and has a stored sequence, recent or not, the hook stores the
    capture followed by that sequence, cut at the frame limit. *)
Theorem short_capture_kept (asyncId : Z) (type : string)
    (triggerAsyncId : Z) (stack : list CallSite) (parentTrace : list Frame)
    (s : State) :
  length (getCallSites 2 stack s).1 ≤ 1 →
  triggerAsyncId ≠ 0%Z →
  traces s !! triggerAsyncId = Some parentTrace →
  ∃ s', asyncInit asyncId type triggerAsyncId stack s = Ok s'
    ∧ traces s' !! asyncId
      = Some (splice (stackTraceLimit s)
                     ((getCallSites 2 stack s).1 ++ parentTrace)).
Proof.
  intros Hshort Hroot Hp. rewrite asyncInit_unfold, Hp.
  rewrite dedup_short by done.
  replace (if bool_decide (triggerAsyncId ∈ executionScopeInits s)
           then Ok (getCallSites 2 stack s).1
           else Ok (getCallSites 2 stack s).1)
    with (Ok (A := list Frame) (getCallSites 2 stack s).1)
    by (by case_bool_decide).
  simpl. eexists. split; [reflexivity |]. simpl.
  rewrite lookup_insert_eq. by rewrite bool_decide_eq_true_2.
Qed.

(** X12: cutting each stored sequence at the frame limit loses nothing
    a later sequence would keep: when the sequence stored for a trigger
    that is neither the root value nor recent is some sequence [x] cut
    at the limit, the hook stores what it would have stored had all of
    [x] been there, the capture followed by [x], cut at the limit. *)
Theorem truncation_loses_nothing (asyncId : Z) (type : string)
    (triggerAsyncId : Z) (stack : list CallSite) (x : list Frame) (s : State) :
  (0 ≤ stackTraceLimit s)%Z →
  triggerAsyncId ≠ 0%Z →
  triggerAsyncId ∉ executionScopeInits s →
  traces s !! triggerAsyncId = Some (take (Z.to_nat (stackTraceLimit s)) x) →
  ∃ s', asyncInit asyncId type triggerAsyncId stack s = Ok s'
    ∧ traces s' !! asyncId
      = Some (take (Z.to_nat (stackTraceLimit s))
                   ((getCallSites 2 stack s).1 ++ x)).
Proof.
  intros Hlimit Hroot Hrecent Hx. rewrite asyncInit_unfold.
  rewrite (bool_decide_eq_false_2 (triggerAsyncId ∈ executionScopeInits s))
    by done.
  rewrite (bool_decide_eq_true_2 (triggerAsyncId ≠ 0%Z)) by done. simpl.
  eexists. split; [reflexivity |]. simpl. rewrite lookup_insert_eq, Hx. simpl.
  rewrite splice_nonneg by done. by rewrite take_app_take.
Qed.

End StoredSequence.

(** ** What runs of events keep *)

Section RunInvariants.

Variable chain_callSite : Z → list CallSite → CallSiteOptions → list CallSite.

#[local] Abbreviation asyncInit := (asyncInit chain_callSite).
#[local] Abbreviation step := (step chain_callSite).
#[local] Abbreviation run := (run chain_callSite).

Lemma run_depth (events : list Event) (s s' : State) :
  run events s = Ok s' →
  executionScopeDepth s'
    = (executionScopeDepth s + depth_change events)%Z.
Proof.
  revert s. induction events as [| e rest IH]; intros s H; simpl in H.
  - injection H as <-. simpl. lia.
  - apply bind_Ok in H as (s1 & Hstep & Hrest).
    rewrite (IH s1 Hrest). apply (step_depth chain_callSite) in Hstep.
    rewrite Hstep. destruct e; simpl; lia.
Qed.

(** X13: after a run that returns, the nesting depth is the depth
    before it plus its enters less its exits, matched or not: nothing
    keeps the depth from going below zero. *)
Theorem depth_counts_enters_and_exits (events : list Event) (s s' : State) :
  run events s = Ok s' →
  executionScopeDepth s'
    = (executionScopeDepth s + depth_change events)%Z.
Proof. apply run_depth. Qed.

(** X23: after a run from the initial state, matched or not, the next
    enter empties the recent inits when the enters and exits of the run
    cancel out, and leaves them as they are when they do not: an enter
    that follows an unmatched exit is not taken for an outermost one. *)
Theorem enter_clears_iff_counts_cancel (limit : Z) (events : list Event)
    (s : State) :
  run events (initial limit) = Ok s →
  (depth_change events = 0%Z → executionScopeInits (asyncBefore s) = ∅)
  ∧ (depth_change events ≠ 0%Z →
     executionScopeInits (asyncBefore s) = executionScopeInits s).
Proof.
  intros Hrun. apply run_depth in Hrun. simpl in Hrun.
  unfold asyncBefore. simpl. split; intros H.
  - rewrite bool_decide_eq_true_2; [done | lia].
  - rewrite bool_decide_eq_false_2; [done | lia].
Qed.

Lemma step_dom (e : Event) (s s' : State) :
  step e s = Ok s' →
  dom (traces s') = tracked [e] (dom (traces s)).
Proof.
  destruct e as [asyncId type trigger stack | | | asyncId]; simpl; intros H.
  - apply (asyncInit_Ok_inv chain_callSite) in H as (trace & _ & _ & -> & _).
    apply dom_insert_L.
  - by injection H as <-.
  - by injection H as <-.
  - injection H as <-. simpl. apply dom_delete_L.
Qed.

(** X14: after a run that returns, the identifiers with a stored
    sequence are those that had one before it or were scheduled in it,
    and have not been destroyed since. *)
Theorem store_holds_the_tracked (events : list Event) (s s' : State) :
  run events s = Ok s' →
  dom (traces s') = tracked events (dom (traces s)).
Proof.
  revert s. induction events as [| e rest IH]; intros s H; simpl in H.
  - by injection H as <-.
  - apply bind_Ok in H as (s1 & Hstep & Hrest).
    rewrite (IH s1 Hrest). apply step_dom in Hstep. rewrite Hstep.
    by destruct e.
Qed.

Lemma run_recent_scheduled (events : list Event) (s s' : State) (id : Z) :
  run events s = Ok s' →
  id ∈ executionScopeInits s' →
  id ∈ executionScopeInits s
  ∨ ∃ type trigger stack, Init id type trigger stack ∈ events.
Proof.
  revert s. induction events as [| e rest IH]; intros s H Hin; simpl in H.
  - injection H as <-. by left.
  - apply bind_Ok in H as (s1 & Hstep & Hrest).
    destruct (IH s1 Hrest Hin) as [Hin1 | (ty & tr & st & Hev)]; cycle 1.
    { right. exists ty, tr, st. by right. }
    destruct e as [asyncId type trigger stack | | | asyncId]; simpl in Hstep.
    + apply (asyncInit_Ok_inv chain_callSite) in Hstep as (_ & Hi & _).
      rewrite Hi, elem_of_union, elem_of_singleton in Hin1.
      destruct Hin1 as [-> | Hin1]; [| by left].
      right. exists type, trigger, stack. by left.
    + injection Hstep as <-. simpl in Hin1. left.
      case_bool_decide; [by apply elem_of_empty in Hin1 | done].
    + injection Hstep as <-. by left.
    + injection Hstep as <-. by left.
Qed.

Lemma run_recent_unstored (events : list Event) (s s' : State) (id : Z) :
  run events s = Ok s' →
  id ∈ executionScopeInits s' →
  traces s' !! id = None →
  (id ∈ executionScopeInits s ∧ traces s !! id = None)
  ∨ Destroy id ∈ events.
Proof.
  revert s. induction events as [| e rest IH]; intros s H Hin Hnone; simpl in H.
  - injection H as <-. by left.
  - apply bind_Ok in H as (s1 & Hstep & Hrest).
    destruct (IH s1 Hrest Hin Hnone) as [[Hin1 Hnone1] | Hev]; cycle 1.
    { right. by right. }
    destruct e as [asyncId type trigger stack | | | asyncId]; simpl in Hstep.
    + apply (asyncInit_Ok_inv chain_callSite) in Hstep
        as (trace & Hi & _ & Ht & _).
      rewrite Ht in Hnone1. rewrite Hi in Hin1.
      destruct (decide (asyncId = id)) as [-> | Hne].
      * by rewrite lookup_insert_eq in Hnone1.
      * rewrite lookup_insert_ne in Hnone1 by done.
        apply elem_of_union in Hin1 as [Hin1 | Hin1]; [| by left].
        apply elem_of_singleton in Hin1. congruence.
    + injection Hstep as <-. simpl in *. left.
      case_bool_decide; [by apply elem_of_empty in Hin1 | done].
    + injection Hstep as <-. by left.
    + injection Hstep as <-. simpl in *.
      destruct (decide (asyncId = id)) as [-> | Hne]; [right; by left |].
      left. by rewrite lookup_delete_ne in Hnone1.
Qed.

(** X15: after a run from the initial state, every recent init was
    scheduled in the run, and a recent init without a stored sequence
    was destroyed in it: the destroy hook leaves the recent inits
    alone. *)
Theorem recent_inits_scheduled_or_destroyed (limit : Z) (events : list Event)
    (s : State) (id : Z) :
  run events (initial limit) = Ok s →
  id ∈ executionScopeInits s →
  (∃ type trigger stack, Init id type trigger stack ∈ events)
  ∧ (traces s !! id = None → Destroy id ∈ events).
Proof.
  intros Hrun Hin. split.
  - destruct (run_recent_scheduled events _ _ id Hrun Hin) as [H | H]; [| done].
    simpl in H. by apply elem_of_empty in H.
  - intros Hnone.
    destruct (run_recent_unstored events _ _ id Hrun Hin Hnone)
      as [[H _] | H]; [| done].
    simpl in H. by apply elem_of_empty in H.
Qed.

(** X16: scheduling an identifier that had no stored sequence and then
    destroying it brings the store back to what it was; the identifier
    stays among the recent inits. *)
Theorem schedule_then_destroy (asyncId : Z) (type : string)
    (triggerAsyncId : Z) (stack : list CallSite) (s s' : State) :
  traces s !! asyncId = None →
  asyncInit asyncId type triggerAsyncId stack s = Ok s' →
  traces (asyncDestroy asyncId s') = traces s
  ∧ asyncId ∈ executionScopeInits (asyncDestroy asyncId s').
Proof.
  intros Hnone H.
  apply (asyncInit_Ok_inv chain_callSite) in H as (trace & Hi & _ & Ht & _).
  simpl. rewrite Hi, Ht. split.
  - by apply delete_insert_id.
  - apply elem_of_union_l. by apply elem_of_singleton.
Qed.

(** X17: in a state reached from the initial one with a frame limit
    that is not negative, the extend hook keeps the frames it is given
    in front and adds at most as many frames as the limit. *)
Theorem extend_adds_at_most_limit (limit : Z) (events : list Event) (s : State)
    (id : Z) (frames : list (CallSite + Frame)) :
  (0 ≤ limit)%Z →
  run events (initial limit) = Ok s →
  frames `prefix_of` extend_hook id frames s
  ∧ length (extend_hook id frames s) ≤ length frames + Z.to_nat limit.
Proof.
  intros Hlimit Hrun. unfold extend_hook. split; [by eexists |].
  rewrite length_app, length_fmap.
  destruct (run_depth_bounded chain_callSite limit events s Hlimit Hrun)
    as [Hl Hb].
  destruct (traces s !! id) as [trace |] eqn:Ht; simpl; [| lia].
  specialize (Hb id trace Ht). lia.
Qed.

(** X18: in a state reached from the initial one every handle of every
    stored sequence still has its call site, and answers the position
    accessors with the call site's values. *)
Theorem stored_handles_alive (limit : Z) (events : list Event) (s : State)
    (id : Z) (trace : list Frame) (f : Frame) :
  run events (initial limit) = Ok s →
  traces s !! id = Some trace →
  f ∈ trace →
  ∃ callSite, deref f = Some callSite
    ∧ reports f (cs_fileName callSite) (cs_lineNumber callSite)
                (cs_columnNumber callSite).
Proof.
  intros Hrun Ht Hf.
  pose proof (run_store_live chain_callSite limit events s Hrun id trace Ht)
    as Hlive.
  rewrite Forall_forall in Hlive. destruct (Hlive f Hf) as [callSite Hd].
  exists callSite. split; [done |]. by apply accessor_live.
Qed.

Lemma run_stored_scheduled (events : list Event) (s s' : State) (id : Z) :
  run events s = Ok s' →
  is_Some (traces s' !! id) →
  is_Some (traces s !! id)
  ∨ ∃ type trigger stack, Init id type trigger stack ∈ events.
Proof.
  revert s. induction events as [| e rest IH]; intros s H Hin; simpl in H.
  - injection H as <-. by left.
  - apply bind_Ok in H as (s1 & Hstep & Hrest).
    destruct (IH s1 Hrest Hin) as [Hin1 | (ty & tr & st & Hev)]; cycle 1.
    { right. exists ty, tr, st. by right. }
    destruct e as [asyncId type trigger stack | | | asyncId]; simpl in Hstep.
    + apply (asyncInit_Ok_inv chain_callSite) in Hstep
        as (trace & _ & _ & Ht & _).
      rewrite Ht in Hin1.
      destruct (decide (asyncId = id)) as [-> | Hne].
      * right. exists type, trigger, stack. by left.
      * rewrite lookup_insert_ne in Hin1 by done. by left.
    + injection Hstep as <-. by left.
    + injection Hstep as <-. by left.
    + injection Hstep as <-. simpl in Hin1. left.
      destruct Hin1 as [trace Hin1].
      apply lookup_delete_Some in Hin1 as [_ Hin1]. by eexists.
Qed.

(** X24: in a state reached from the initial one, a scheduling hook
    whose trigger was never scheduled returns, and stores the captured
    sequence with nothing appended, cut at the frame limit. *)
Theorem never_scheduled_trigger_is_empty (limit : Z) (events : list Event)
    (s : State) (asyncId : Z) (type : string) (triggerAsyncId : Z)
    (stack : list CallSite) :
  run events (initial limit) = Ok s →
  (∀ type' trigger' stack',
     Init triggerAsyncId type' trigger' stack' ∉ events) →
  ∃ s', asyncInit asyncId type triggerAsyncId stack s = Ok s'
    ∧ traces s' !! asyncId
      = Some (splice (stackTraceLimit s)
                     (getCallSites chain_callSite 2 stack s).1).
Proof.
  intros Hrun Hnever.
  apply asyncInit_untracked_trigger.
  - destruct (traces s !! triggerAsyncId) as [trace |] eqn:Ht; [| done].
    destruct (run_stored_scheduled events _ _ triggerAsyncId Hrun)
      as [[x Hx] | (ty & tr & st & Hev)]; [by eexists | |].
    + simpl in Hx. by rewrite lookup_empty in Hx.
    + by apply Hnever in Hev.
  - intros Hin.
    destruct (run_recent_scheduled events _ _ triggerAsyncId Hrun Hin)
      as [Hx | (ty & tr & st & Hev)].
    + simpl in Hx. by apply elem_of_empty in Hx.
    + by apply Hnever in Hev.
Qed.

End RunInvariants.

(** ** The attached filter *)

Lemma keeps_name_true (name : JsValue) :
  keeps_name name = true ↔ ¬ internal_name name.
Proof.
  unfold keeps_name, internal_name, strict_eq. split.
  - intros H [-> | ->]; done.
  - intros H. apply orb_true_iff. right.
    rewrite !bool_decide_eq_false_2; [done | |]; intros E; apply H; tauto.
Qed.

Lemma filter_hook_keeps (frames : list CallSite) :
  filter_hook frames = List.filter (λ x, keeps_name (cs_fileName x)) frames.
Proof. reflexivity. Qed.

(** X19: the filter attached to the chain removes the frames whose file
    name is [async_hooks.js] or [internal/async_hooks.js] and no
    other: what it returns is the frames with another file name, those
    without one among them, each as often as it came and in the order
    they had. *)
Theorem filter_hook_removes_internal_only (frames : list CallSite) :
  filter_hook frames
    = filter (λ x, ¬ internal_name (cs_fileName x)) frames
  ∧ filter_hook frames `sublist_of` frames
  ∧ ∀ x, x ∈ filter_hook frames
         ↔ x ∈ frames ∧ ¬ internal_name (cs_fileName x).
Proof.
  rewrite filter_hook_keeps. split; [| split].
  - induction frames as [| x frames IH]; simpl; [done |].
    rewrite filter_cons, IH.
    destruct (keeps_name (cs_fileName x)) eqn:Hk.
    + apply keeps_name_true in Hk. by rewrite decide_True.
    + apply not_true_iff_false in Hk. rewrite keeps_name_true in Hk.
      by rewrite decide_False.
  - induction frames as [| x frames IH]; simpl; [done |].
    destruct (keeps_name (cs_fileName x)).
    + by apply sublist_skip.
    + by apply sublist_cons.
  - intros x. rewrite !list_elem_of_In, filter_In, keeps_name_true. done.
Qed.

Lemma filter_hook_frames_raw (raw : list CallSite) :
  filter_hook_frames (inl <$> raw) = Ok (inl <$> filter_hook raw).
Proof.
  rewrite filter_hook_keeps.
  induction raw as [| x raw IH]; simpl; [done |].
  change (list_fmap _ _ inl raw) with (@inl CallSite Frame <$> raw).
  rewrite IH. by destruct (keeps_name (cs_fileName x)).
Qed.

Lemma filter_hook_frames_app (l1 l2 k1 k2 : list (CallSite + Frame)) :
  filter_hook_frames l1 = Ok k1 →
  filter_hook_frames l2 = Ok k2 →
  filter_hook_frames (l1 ++ l2) = Ok (k1 ++ k2).
Proof.
  revert k1. induction l1 as [| x l1 IH]; intros k1 H1 H2; simpl in *.
  - by injection H1 as <-.
  - destruct (frame_fileName x) as [name |]; [| done].
    destruct (filter_hook_frames l1) as [kept |]; [| done].
    injection H1 as <-. rewrite (IH kept eq_refl H2).
    by destruct (keeps_name name).
Qed.

Lemma filter_hook_frames_throws (frames : list (CallSite + Frame)) :
  filter_hook_frames frames = Throw TypeError
  ↔ ∃ handle, inr handle ∈ frames ∧ deref handle = None.
Proof.
  induction frames as [| x frames IH]; simpl.
  - split; [done |]. intros (h & Hin & _). by apply elem_of_nil in Hin.
  - destruct x as [raw | handle]; simpl.
    + destruct (filter_hook_frames frames) as [kept | []].
      * split; [done |]. intros (h & Hin & Hd).
        apply elem_of_cons in Hin as [[=] | Hin].
        assert (Ok kept = Throw TypeError) as [=]. apply IH. eauto.
      * split; [| done]. intros _.
        destruct (proj1 IH eq_refl) as (h & Hin & Hd).
        exists h. split; [by right | done].
    + destruct (deref handle) as [callSite |] eqn:Hd.
      * destruct (accessor_live handle callSite Hd) as (-> & _).
        destruct (filter_hook_frames frames) as [kept | []].
        -- split; [done |]. intros (h & Hin & Hd').
           apply elem_of_cons in Hin as [[= <-] | Hin]; [congruence |].
           assert (Ok kept = Throw TypeError) as [=]. apply IH. eauto.
        -- split; [| done]. intros _.
           destruct (proj1 IH eq_refl) as (h & Hin & Hd').
           exists h. split; [by right | done].
      * destruct (accessor_reclaimed handle Hd) as (-> & _).
        split; [| done]. intros _. exists handle. split; [by left | done].
Qed.

(** X20: run over the frames of a trace, raw call sites and handles,
    the attached filter throws exactly when one of the handles has lost
    its call site. *)
Theorem filter_throws_iff_reclaimed (frames : list (CallSite + Frame)) :
  filter_hook_frames frames = Throw TypeError
  ↔ ∃ handle, inr handle ∈ frames ∧ deref handle = None.
Proof. apply filter_hook_frames_throws. Qed.

Lemma filter_hook_frames_exact (frames kept : list (CallSite + Frame)) :
  filter_hook_frames frames = Ok kept →
  kept = filter reports_foreign_name frames.
Proof.
  revert kept. induction frames as [| y frames IH]; intros kept H; simpl in H.
  - by injection H as <-.
  - destruct (frame_fileName y) as [name |] eqn:Hy; [| done].
    destruct (filter_hook_frames frames) as [kept' |]; [| done].
    injection H as <-. rewrite filter_cons, <- (IH kept' eq_refl).
    destruct (keeps_name name) eqn:Hk.
    + apply keeps_name_true in Hk. rewrite decide_True; [done |].
      exists name. done.
    + apply not_true_iff_false in Hk. rewrite keeps_name_true in Hk.
      rewrite decide_False; [done |].
      intros (name' & Hn & Hout). rewrite Hy in Hn. injection Hn as <-.
      by apply Hk.
Qed.

(** X21: when the attached filter returns, over raw call sites and
    handles, what it returns is the frames that report a file name
    other than the two [async_hooks] sources, each as often as it came
    and in the order they had. *)
Theorem filter_keeps_iff (frames kept : list (CallSite + Frame)) :
  filter_hook_frames frames = Ok kept →
  kept = filter reports_foreign_name frames
  ∧ kept `sublist_of` frames
  ∧ ∀ x, x ∈ kept
         ↔ x ∈ frames
           ∧ ∃ name, frame_fileName x = Ok name ∧ ¬ internal_name name.
Proof.
  intros H. apply filter_hook_frames_exact in H as ->.
  split; [done |]. split; [apply sublist_filter |].
  intros x. rewrite list_elem_of_filter. unfold reports_foreign_name. tauto.
Qed.

(** X22: in a state reached from the initial one, extending the raw
    call sites of a trace for any identifier and then filtering never
    throws, and what the filter keeps starts with what it keeps of the
    raw call sites alone. *)
Theorem extend_then_filter_returns
    (chain_callSite : Z → list CallSite → CallSiteOptions → list CallSite)
    (limit : Z) (events : list Event) (s : State) (id : Z)
    (raw : list CallSite) :
  run chain_callSite events (initial limit) = Ok s →
  ∃ kept,
    filter_hook_frames (extend_hook id (inl <$> raw) s) = Ok kept
    ∧ (inl <$> filter_hook raw) `prefix_of` kept.
Proof.
  intros Hrun.
  pose proof (run_store_live chain_callSite limit events s Hrun) as Hlive.
  unfold extend_hook.
  destruct (filter_hook_frames (inr <$> default [] (traces s !! id)))
    as [stored | []] eqn:Hstored.
  - exists ((inl <$> filter_hook raw) ++ stored). split; [| by eexists].
    apply filter_hook_frames_app; [apply filter_hook_frames_raw | done].
  - apply filter_hook_frames_throws in Hstored as (h & Hin & Hd).
    apply list_elem_of_fmap in Hin as (h' & [= <-] & Hin).
    destruct (traces s !! id) as [trace |] eqn:Ht; simpl in Hin.
    + specialize (Hlive id trace Ht). rewrite Forall_forall in Hlive.
      destruct (Hlive h Hin) as [callSite Hc]. congruence.
    + by apply elem_of_nil in Hin.
Qed.

(** ** The further properties on the sample data *)

Lemma equalCallSite_symmetric_witness :
  live (WeakProxy 1 (site "app.js" 10 3)) ∧ live (WeakProxy 2 nameless)
  ∧ equalCallSite (WeakProxy 1 (site "app.js" 10 3)) (WeakProxy 2 nameless)
    = equalCallSite (WeakProxy 2 nameless) (WeakProxy 1 (site "app.js" 10 3)).
Proof.
  assert (live (WeakProxy 1 (site "app.js" 10 3))) as La by (by eexists).
  assert (live (WeakProxy 2 nameless)) as Lb by (by eexists).
  split; [exact La |]. split; [exact Lb |].
  exact (equalCallSite_symmetric _ _ La Lb).
Defined.

Lemma equalCallSite_transitive_witness :
  equalCallSite (WeakProxy 1 (site "app.js" 10 3))
                (WeakProxy 3 (site "app.js" 10 3)) = Ok true.
Proof.
  apply (equalCallSite_transitive _ (WeakProxy 2 (site "app.js" 10 3)));
    reflexivity.
Defined.

Lemma equalCallSite_short_circuit_witness :
  reports (WeakProxy 1 nameless) JNull (JNumber 1) (JNumber 1)
  ∧ equalCallSite (WeakProxy 1 nameless) (mkWeakRef 2%positive ∅) = Ok false
  ∧ equalCallSite (WeakProxy 1 (site "app.js" 10 3)) (mkWeakRef 2%positive ∅)
    = Throw TypeError.
Proof.
  assert (reports (WeakProxy 1 nameless) JNull (JNumber 1) (JNumber 1)) as Hr.
  { repeat split. }
  split; [exact Hr |]. split.
  - apply (proj1 (equalCallSite_short_circuit _ (mkWeakRef 2%positive ∅)
                    _ _ _ Hr)).
    left. reflexivity.
  - apply (proj2 (equalCallSite_short_circuit
                    (WeakProxy 1 (site "app.js" 10 3)) (mkWeakRef 2%positive ∅)
                    (JString "app.js") (JNumber 10) (JNumber 3)
                    (conj eq_refl (conj eq_refl eq_refl))));
      (discriminate || reflexivity).
Defined.

Lemma dedup_result_bounds_witness :
  dedup sample_parent 2 sample_captured = Ok (take 1 sample_captured)
  ∧ take 1 sample_captured `prefix_of` sample_captured
  ∧ length sample_captured ≤ length (take 1 sample_captured) + 2.
Proof.
  split; [reflexivity |].
  destruct (dedup_result_bounds sample_parent 2 sample_captured
              (take 1 sample_captured) eq_refl) as (Hp & Hl & _).
  split; [exact Hp | exact Hl].
Defined.

Lemma dedup_no_match_witness :
  dedup [WeakProxy 2 (site "timers.js" 5 1)] 1 sample_captured
  = Ok sample_captured.
Proof.
  apply (dedup_no_match [WeakProxy 2 (site "timers.js" 5 1)] sample_captured).
  - repeat constructor; by eexists.
  - repeat constructor; by eexists.
  - intros p b Hp Hb. apply list_elem_of_singleton in Hp. subst p.
    injection Hb as <-. reflexivity.
Defined.

Lemma asyncInit_touches_only_its_id_witness :
  asyncInit captureFrames 1 "TIMER" 0 (sample_stack [site "app.js" 10 3])
            (initial 10)
  = Ok (outcome (run captureFrames [schedule_A] (initial 10)))
  ∧ executionScopeInits (outcome (run captureFrames [schedule_A] (initial 10)))
    = {[ 1%Z ]} ∪ ∅
  ∧ traces (outcome (run captureFrames [schedule_A] (initial 10))) !! 2%Z
    = None.
Proof.
  split; [reflexivity |].
  destruct (asyncInit_touches_only_its_id captureFrames 1 "TIMER" 0
              (sample_stack [site "app.js" 10 3]) (initial 10)
              (outcome (run captureFrames [schedule_A] (initial 10))) eq_refl)
    as (Hi & _ & _ & _ & Hother).
  split; [exact Hi |]. rewrite (Hother 2%Z); [reflexivity | discriminate].
Defined.

Lemma asyncInit_throws_iff_witness :
  run captureFrames [schedule_A; Destroy 1] (initial 10)
  = Ok (outcome (run captureFrames [schedule_A; Destroy 1] (initial 10)))
  ∧ asyncInit captureFrames 2 "PROMISE" 1 (sample_stack [site "app.js" 20 7])
      (outcome (run captureFrames [schedule_A; Destroy 1] (initial 10)))
    = Throw TypeError.
Proof.
  split; [reflexivity |].
  apply (asyncInit_throws_iff captureFrames 10 [schedule_A; Destroy 1]);
    [reflexivity |].
  split; [| reflexivity]. apply (bool_decide_unpack _). exact I.
Defined.

Lemma run_without_destroy_returns_witness :
  ∃ s, run captureFrames [schedule_A; schedule_B; Before; After] (initial 10)
       = Ok s.
Proof.
  apply (run_without_destroy_returns captureFrames 10).
  repeat constructor; intros H; exact H.
Defined.

Lemma stored_starts_with_capture_witness :
  ∃ stored,
    traces (outcome (run captureFrames [schedule_A; schedule_B] (initial 10)))
      !! 2%Z = Some stored
    ∧ stored !! 0 = Some (WeakProxy 2 (site "app.js" 20 7)).
Proof.
  apply (stored_starts_with_capture captureFrames 2 "PROMISE" 1
           (sample_stack [site "app.js" 20 7; site "app.js" 10 3])
           (outcome (run captureFrames [schedule_A] (initial 10))));
    [vm_compute; discriminate | reflexivity | reflexivity].
Defined.

Lemma repeated_tail_stored_once_witness :
  ∃ s',
    asyncInit captureFrames 2 "PROMISE" 1
      (sample_stack [site "app.js" 20 7; site "app.js" 10 3])
      (outcome (run captureFrames [schedule_A] (initial 10))) = Ok s'
    ∧ deref <$> default [] (traces s' !! 2%Z)
      = [Some (site "app.js" 20 7); Some (site "app.js" 10 3)].
Proof.
  destruct (repeated_tail_stored_once captureFrames 10 [schedule_A]
              (outcome (run captureFrames [schedule_A] (initial 10)))
              2 "PROMISE" 1
              (sample_stack [site "app.js" 20 7; site "app.js" 10 3])
              [WeakProxy 1 (site "app.js" 10 3)]
              [WeakProxy 2 (site "app.js" 20 7)]
              [WeakProxy 3 (site "app.js" 10 3)])
    as (s' & Hs' & Hstored).
  - reflexivity.
  - apply (bool_decide_unpack _). exact I.
  - discriminate.
  - reflexivity.
  - reflexivity.
  - discriminate.
  - repeat constructor.
  - exists s'. split; [exact Hs' |]. rewrite Hstored. reflexivity.
Defined.

Lemma short_capture_kept_witness :
  ∃ s',
    asyncInit captureFrames 2 "PROMISE" 1 (sample_stack [site "app.js" 10 3])
      (outcome (run captureFrames [schedule_A] (initial 10))) = Ok s'
    ∧ deref <$> default [] (traces s' !! 2%Z)
      = [Some (site "app.js" 10 3); Some (site "app.js" 10 3)].
Proof.
  destruct (short_capture_kept captureFrames 2 "PROMISE" 1
              (sample_stack [site "app.js" 10 3])
              [WeakProxy 1 (site "app.js" 10 3)]
              (outcome (run captureFrames [schedule_A] (initial 10))))
    as (s' & Hs' & Hstored).
  - vm_compute. lia.
  - discriminate.
  - reflexivity.
  - exists s'. split; [exact Hs' |]. rewrite Hstored. reflexivity.
Defined.

Lemma truncation_loses_nothing_witness :
  ∃ s',
    asyncInit captureFrames 2 "PROMISE" 1 (sample_stack [])
      (outcome (run captureFrames [schedule_A; Before] (initial 1))) = Ok s'
    ∧ deref <$> default [] (traces s' !! 2%Z) = [Some (site "app.js" 10 3)].
Proof.
  destruct (truncation_loses_nothing captureFrames 2 "PROMISE" 1
              (sample_stack [])
              [WeakProxy 1 (site "app.js" 10 3); WeakProxy 9 nameless]
              (outcome (run captureFrames [schedule_A; Before] (initial 1))))
    as (s' & Hs' & Hstored).
  - vm_compute. discriminate.
  - discriminate.
  - apply (bool_decide_unpack _). exact I.
  - reflexivity.
  - exists s'. split; [exact Hs' |]. rewrite Hstored. reflexivity.
Defined.

Lemma depth_counts_enters_and_exits_witness :
  executionScopeDepth
    (outcome (run captureFrames [After; After; Before] (initial 10)))
  = (-1)%Z.
Proof.
  rewrite (depth_counts_enters_and_exits captureFrames [After; After; Before]
             (initial 10)
             (outcome (run captureFrames [After; After; Before] (initial 10)))
             eq_refl).
  reflexivity.
Defined.

Lemma store_holds_the_tracked_witness :
  dom (traces (outcome (run captureFrames [schedule_A; schedule_B; Destroy 1]
                            (initial 10))))
  = ({[ 2%Z ]} ∪ ({[ 1%Z ]} ∪ ∅)) ∖ {[ 1%Z ]}.
Proof.
  rewrite (store_holds_the_tracked captureFrames
             [schedule_A; schedule_B; Destroy 1] (initial 10)
             (outcome (run captureFrames [schedule_A; schedule_B; Destroy 1]
                           (initial 10)))
             eq_refl).
  simpl. rewrite dom_empty_L. reflexivity.
Defined.

Lemma recent_inits_scheduled_or_destroyed_witness :
  1%Z ∈ executionScopeInits
          (outcome (run captureFrames [schedule_A; Destroy 1] (initial 10)))
  ∧ Destroy 1 ∈ [schedule_A; Destroy 1].
Proof.
  assert (1%Z ∈ executionScopeInits
            (outcome (run captureFrames [schedule_A; Destroy 1] (initial 10))))
    as Hin.
  { apply (bool_decide_unpack _). exact I. }
  split; [exact Hin |].
  apply (proj2 (recent_inits_scheduled_or_destroyed captureFrames 10
                  [schedule_A; Destroy 1] _ 1 eq_refl Hin)).
  reflexivity.
Defined.

Lemma schedule_then_destroy_witness :
  traces (initial 10) !! 1%Z = None
  ∧ traces (asyncDestroy 1
              (outcome (run captureFrames [schedule_A] (initial 10))))
    = traces (initial 10).
Proof.
  split; [reflexivity |].
  apply (schedule_then_destroy captureFrames 1 "TIMER" 0
           (sample_stack [site "app.js" 10 3]) (initial 10)
           (outcome (run captureFrames [schedule_A] (initial 10))));
    reflexivity.
Defined.

Lemma extend_adds_at_most_limit_witness :
  length (extend_hook 1 [inl (site "main.js" 1 1)]
            (outcome (run captureFrames [schedule_A] (initial 10))))
  ≤ 1 + 10.
Proof.
  apply (extend_adds_at_most_limit captureFrames 10 [schedule_A]
           (outcome (run captureFrames [schedule_A] (initial 10)))
           1 [inl (site "main.js" 1 1)]);
    [lia | reflexivity].
Defined.

Lemma stored_handles_alive_witness :
  ∃ callSite,
    deref (WeakProxy 1 (site "app.js" 10 3)) = Some callSite
    ∧ reports (WeakProxy 1 (site "app.js" 10 3))
        (cs_fileName callSite) (cs_lineNumber callSite)
        (cs_columnNumber callSite).
Proof.
  apply (stored_handles_alive captureFrames 10 [schedule_A]
           (outcome (run captureFrames [schedule_A] (initial 10)))
           1 [WeakProxy 1 (site "app.js" 10 3)]);
    [reflexivity | reflexivity | by left].
Defined.

Lemma filter_keeps_iff_witness :
  filter_hook_frames
    [inl (site "async_hooks.js" 1 1); inr (WeakProxy 1 (site "app.js" 10 3));
     inl (site "app.js" 10 3); inl (site "app.js" 10 3)]
  = Ok [inr (WeakProxy 1 (site "app.js" 10 3));
        inl (site "app.js" 10 3); inl (site "app.js" 10 3)]
  ∧ [inr (WeakProxy 1 (site "app.js" 10 3));
     inl (site "app.js" 10 3); inl (site "app.js" 10 3)]
    = filter reports_foreign_name
        [inl (site "async_hooks.js" 1 1);
         inr (WeakProxy 1 (site "app.js" 10 3));
         inl (site "app.js" 10 3); inl (site "app.js" 10 3)].
Proof.
  split; [reflexivity |].
  apply (filter_keeps_iff
           [inl (site "async_hooks.js" 1 1);
            inr (WeakProxy 1 (site "app.js" 10 3));
            inl (site "app.js" 10 3); inl (site "app.js" 10 3)]
           [inr (WeakProxy 1 (site "app.js" 10 3));
            inl (site "app.js" 10 3); inl (site "app.js" 10 3)] eq_refl).
Defined.

Lemma extend_then_filter_returns_witness :
  ∃ kept,
    filter_hook_frames
      (extend_hook 1 (inl <$> [site "async_hooks.js" 1 1; site "main.js" 1 1])
         (outcome (run captureFrames [schedule_A] (initial 10)))) = Ok kept
    ∧ (inl <$> filter_hook [site "async_hooks.js" 1 1; site "main.js" 1 1])
      `prefix_of` kept.
Proof.
  apply (extend_then_filter_returns captureFrames 10 [schedule_A]).
  reflexivity.
Defined.

Lemma enter_clears_iff_counts_cancel_witness :
  depth_change [Before; schedule_A; After; After] ≠ 0%Z
  ∧ executionScopeInits
      (asyncBefore
         (outcome (run captureFrames [Before; schedule_A; After; After]
                       (initial 10))))
    = executionScopeInits
        (outcome (run captureFrames [Before; schedule_A; After; After]
                      (initial 10))).
Proof.
  assert (depth_change [Before; schedule_A; After; After] ≠ 0%Z) as Hne
    by discriminate.
  split; [exact Hne |].
  apply (proj2 (enter_clears_iff_counts_cancel captureFrames 10
                  [Before; schedule_A; After; After] _ eq_refl) Hne).
Defined.

Lemma never_scheduled_trigger_is_empty_witness :
  ∃ s',
    asyncInit captureFrames 2 "PROMISE" 7 (sample_stack [site "app.js" 20 7])
      (outcome (run captureFrames [schedule_A] (initial 10))) = Ok s'
    ∧ deref <$> default [] (traces s' !! 2%Z) = [Some (site "app.js" 20 7)].
Proof.
  destruct (never_scheduled_trigger_is_empty captureFrames 10 [schedule_A]
              (outcome (run captureFrames [schedule_A] (initial 10)))
              2 "PROMISE" 7 (sample_stack [site "app.js" 20 7]))
    as (s' & Hs' & Hstored).
  - reflexivity.
  - intros type' trigger' stack' H. apply list_elem_of_singleton in H.
    discriminate H.
  - exists s'. split; [exact Hs' |]. rewrite Hstored. reflexivity.
Defined.
